(** * codegen/generate.go: parameter extraction, validation, naming and
      output paths of the Terraform code and doc generator

    A shallow embedding of [codegen/generate.go].  Go strings are byte
    strings ([string]); the [*framework.OASSchema] objects that the
    generator mutates through pointers live in an explicit store
    ([gmap loc OASSchema]); Go maps that the generator ranges over are
    association lists given in the order of the iteration; a Go run-time
    panic (nil dereference, slice bound out of range) is the outcome
    [Panic]. *)

From Stdlib Require Import String Ascii ZArith List Permutation Sorted OrderedTypeEx.
From stdpp Require Import base gmap list strings.

Open Scope string_scope.

#[local] Set Warnings "-clear-no-such-hyp".

(** ** Go's [strings] package, on the calls this file makes *)

Module GoStrings.

(** [strings.Replace(s, old, new, -1)] for a one-byte [old]. *)
Fixpoint Replace (s : string) (old : ascii) (new : string) : string :=
  match s with
  | EmptyString => EmptyString
  | String c s' =>
      if Ascii.eqb c old then new +:+ Replace s' old new
      else String c (Replace s' old new)
  end.

(** [strings.Split(s, sep)] for a one-byte [sep]: never empty. *)
Fixpoint Split (s : string) (sep : ascii) : list string :=
  match s with
  | EmptyString => [EmptyString]
  | String c s' =>
      if Ascii.eqb c sep then EmptyString :: Split s' sep
      else match Split s' sep with
           | seg :: rest => String c seg :: rest
           | [] => [String c EmptyString]
           end
  end.

(** [strings.HasPrefix(s, prefix)]. *)
Fixpoint HasPrefix (s prefix : string) : bool :=
  match prefix, s with
  | EmptyString, _ => true
  | String _ _, EmptyString => false
  | String a prefix', String b s' => Ascii.eqb a b && HasPrefix s' prefix'
  end.

Fixpoint LastIndex_from (i : Z) (s : string) (sep : ascii) (found : Z) : Z :=
  match s with
  | EmptyString => found
  | String c s' =>
      LastIndex_from (i + 1) s' sep (if Ascii.eqb c sep then i else found)
  end.

(** [strings.LastIndex(s, sep)] for a one-byte [sep]: [-1] when absent. *)
Definition LastIndex (s : string) (sep : ascii) : Z :=
  LastIndex_from 0 s sep (-1).

Definition len (s : string) : Z := Z.of_nat (String.length s).

(** The slice expressions [s[:hi]] and [s[lo:]]; out of range they panic
    ([None]). *)
Definition slice_to (s : string) (hi : Z) : option string :=
  if decide (0 ≤ hi ≤ len s)%Z then Some (substring 0 (Z.to_nat hi) s)
  else None.

Definition slice_from (s : string) (lo : Z) : option string :=
  if decide (0 ≤ lo ≤ len s)%Z
  then Some (substring (Z.to_nat lo) (String.length s - Z.to_nat lo) s)
  else None.

Definition is_upper (c : ascii) : bool :=
  (65 <=? nat_of_ascii c)%nat && (nat_of_ascii c <=? 90)%nat.
Definition is_lower (c : ascii) : bool :=
  (97 <=? nat_of_ascii c)%nat && (nat_of_ascii c <=? 122)%nat.
Definition is_digit (c : ascii) : bool :=
  (48 <=? nat_of_ascii c)%nat && (nat_of_ascii c <=? 57)%nat.

Definition lower (c : ascii) : ascii :=
  if is_upper c then ascii_of_nat (nat_of_ascii c + 32) else c.
Definition upper (c : ascii) : ascii :=
  if is_lower c then ascii_of_nat (nat_of_ascii c - 32) else c.

(** [strings.ToLower] on ASCII; a byte from 0x80 on is kept (Go maps the
    letters outside ASCII as well). *)
Fixpoint ToLower (s : string) : string :=
  match s with
  | EmptyString => EmptyString
  | String c s' => String (lower c) (ToLower s')
  end.

(** [isSeparator] of strings.go: ASCII letters, digits and underscore do
    not separate words, every other ASCII byte does. *)
Definition isSeparator (c : ascii) : bool :=
  if (nat_of_ascii c <=? 127)%nat
  then negb (is_digit c || is_lower c || is_upper c || Ascii.eqb c "_")
  else false.

(** The closure of [strings.Title]: [prev] is the byte seen last. *)
Fixpoint Title_from (prev : ascii) (s : string) : string :=
  match s with
  | EmptyString => EmptyString
  | String c s' =>
      String (if isSeparator prev then upper c else c) (Title_from c s')
  end.

(** [strings.Title] on ASCII: the first letter of every word in upper
    case. *)
Definition Title (s : string) : string := Title_from " " s.

End GoStrings.
Import GoStrings.

(** [strutil.StrListContains] of the Vault SDK. *)
Definition StrListContains (haystack : list string) (needle : string) : bool :=
  existsb (λ item, String.eqb item needle) haystack.

(** ** The OpenAPI model of [framework] (Vault SDK), on the fields read here *)

(** A reference to a [framework.OASSchema] object. *)
Definition loc := positive.

Record DisplayAttributes := mkDisplayAttributes {
  display_Name : string;
  display_Sensitive : bool;
  display_Group : string
}.

(** [Properties] is a [map[string]*OASSchema]: the pairs in the order in
    which a [range] visits them; the nil map and the empty map are both
    the empty list, a [range] over either does nothing. *)
Record OASSchema := mkOASSchema {
  schema_Type : string;
  schema_Description : string;
  schema_Properties : list (string * option loc);
  schema_DisplayAttrs : option DisplayAttributes
}.

Record OASParameter := mkOASParameter {
  param_Name : string;
  param_Description : string;
  param_In : string;
  param_Schema : option loc;
  param_Required : bool;
  param_Deprecated : bool
}.

Record OASMediaTypeObject := mkOASMediaTypeObject {
  media_Schema : option loc
}.

(** [Content] is an [OASContent], a [map[string]*OASMediaTypeObject]:
    [None] is the nil map. *)
Record OASRequestBody := mkOASRequestBody {
  body_Description : string;
  body_Content : option (list (string * option OASMediaTypeObject))
}.

Record OASOperation := mkOASOperation {
  op_Summary : string;
  op_RequestBody : option OASRequestBody
}.

Record OASPathItem := mkOASPathItem {
  item_Description : string;
  item_Parameters : list OASParameter;
  item_Get : option OASOperation;
  item_Post : option OASOperation;
  item_Delete : option OASOperation
}.

Definition set_Parameters (pathItem : OASPathItem)
    (params : list OASParameter) : OASPathItem :=
  mkOASPathItem (item_Description pathItem) params (item_Get pathItem)
    (item_Post pathItem) (item_Delete pathItem).

(** The zero values [framework.OASSchema{}] and
    [framework.DisplayAttributes{}]. *)
Definition zeroDisplayAttributes : DisplayAttributes :=
  mkDisplayAttributes EmptyString false EmptyString.

Definition zeroSchema : OASSchema :=
  mkOASSchema EmptyString EmptyString [] None.

(** The assignment [s.DisplayAttrs = &framework.DisplayAttributes{}]. *)
Definition set_DisplayAttrs (s : OASSchema) : OASSchema :=
  mkOASSchema (schema_Type s) (schema_Description s) (schema_Properties s)
    (Some zeroDisplayAttributes).

(** ** Outcomes *)

Inductive error :=
| ErrUnsupported
| ErrOther (msg : string).

Inductive result (A : Type) :=
| Ok (a : A)
| Err (e : error)
| Panic.
Arguments Ok {A} a.
Arguments Err {A} e.
Arguments Panic {A}.

#[export] Instance result_ret : MRet result := λ A a, Ok a.
#[export] Instance result_bind : MBind result := λ A B f m,
  match m with
  | Ok a => f a
  | Err e => Err e
  | Panic => Panic
  end.

(** A [for ... range] loop whose body may leave the function. *)
Fixpoint foldM {A B : Type} (f : B → A → result B) (b : B) (l : list A)
    : result B :=
  match l with
  | [] => Ok b
  | a :: l' => b' ← f b a; foldM f b' l'
  end.

(** ** appendPostParamsToTopLevel *)

(** [if s.DisplayAttrs == nil { s.DisplayAttrs = &DisplayAttributes{} }]
    through the pointer [l].  A reference that the store does not hold
    cannot occur in a Go heap; the model gives it the outcome of a nil
    dereference. *)
Definition ensureDisplayAttrs (l : loc) (σ : gmap loc OASSchema)
    : result (OASSchema * gmap loc OASSchema) :=
  match σ !! l with
  | None => Panic
  | Some s =>
      match schema_DisplayAttrs s with
      | None => Ok (set_DisplayAttrs s, <[l := set_DisplayAttrs s]> σ)
      | Some _ => Ok (s, σ)
      end
  end.

(** The body of the first loop.  [param] is the loop variable, a copy of
    the slice element: [param.Schema = &framework.OASSchema{}] assigns to
    the copy, and the display attributes that follow are set on the object
    that only the copy refers to, so neither reaches [pathItem.Parameters]
    nor the store.  Display attributes set through a present
    [param.Schema] land in the shared schema object. *)
Definition seeParam (st : gmap loc OASSchema * gset string)
    (param : OASParameter) : result (gmap loc OASSchema * gset string) :=
  let '(σ, unique) := st in
  match param_Schema param with
  | None => Ok (σ, {[param_Name param]} ∪ unique)
  | Some l =>
      '(_, σ') ← ensureDisplayAttrs l σ;
      Ok (σ', {[param_Name param]} ∪ unique)
  end.

(** The state of the second loop: [pathItem.Parameters], the store and
    [unique]. *)
Definition merge_state : Type :=
  list OASParameter * gmap loc OASSchema * gset string.

(** The body of the loop over [mediaTypeObject.Schema.Properties]. *)
Definition addProperty (st : merge_state) (prop : string * option loc)
    : result merge_state :=
  let '(params, σ, unique) := st in
  let '(propertyName, schema) := prop in
  if decide (propertyName ∈ unique) then Ok st
  else
    '(l, σ0) ← match schema with
               | None => let l := fresh (dom σ) in Ok (l, <[l := zeroSchema]> σ)
               | Some l => Ok (l, σ)
               end;
    '(s, σ') ← ensureDisplayAttrs l σ0;
    Ok ((params ++ [mkOASParameter propertyName (schema_Description s) "post"
                      (Some l) false false])%list,
        σ', {[propertyName]} ∪ unique).

(** The body of the loop over [pathItem.Post.RequestBody.Content]; a nil
    [*OASMediaTypeObject] is dereferenced by [mediaTypeObject.Schema]. *)
Definition addMediaType (st : merge_state)
    (entry : string * option OASMediaTypeObject) : result merge_state :=
  match entry.2 with
  | None => Panic
  | Some mediaTypeObject =>
      match media_Schema mediaTypeObject with
      | None => Ok st
      | Some l =>
          match st.1.2 !! l with
          | None => Panic
          | Some s => foldM addProperty st (schema_Properties s)
          end
      end
  end.

Definition appendPostParamsToTopLevel (pathItem : OASPathItem)
    (σ : gmap loc OASSchema) : result (OASPathItem * gmap loc OASSchema) :=
  match item_Post pathItem with
  | None => Ok (pathItem, σ)
  | Some post =>
      match op_RequestBody post with
      | None => Ok (pathItem, σ)
      | Some body =>
          match body_Content body with
          | None => Ok (pathItem, σ)
          | Some content =>
              '(σ1, unique) ← foldM seeParam (σ, ∅) (item_Parameters pathItem);
              '(params, σ2, _) ←
                foldM addMediaType (item_Parameters pathItem, σ1, unique) content;
              Ok (set_Parameters pathItem params, σ2)
          end
      end
  end.

(** ** toTemplateFriendly *)

Definition supportedParamTypes : list string :=
  ["array"; "boolean"; "integer"; "string"].

Record templateFriendly := mkTemplateFriendly {
  Endpoint : string;
  DirName : string;
  ExportedFuncPrefix : string;
  PrivateFuncPrefix : string;
  Parameters : list OASParameter;
  SupportsRead : bool;
  SupportsWrite : bool;
  SupportsDelete : bool
}.

(** Modelled from the spec: the artifact kinds of [FileType], whose
    declaration is in another file of the package: resource code,
    data-source code and doc. *)
Inductive FileType :=
| FileTypeDataSource
| FileTypeResource
| FileTypeDoc.

(** What this file takes from elsewhere: the package variable
    [pathToHomeDir], [FileType.String], the parsing and the execution of
    the template of a file type ([html/template] on [templates]), and the
    [%q] verb of [fmt]. *)
Record Env := mkEnv {
  pathToHomeDir : string;
  fileTypeString : FileType → string;
  templateParse : FileType → option string;
  templateExecute :
    FileType → templateFriendly → gmap loc OASSchema → string * option string;
  Quote : string → string
}.

(** What the generator acts on: the object [pathItem] points to, the
    schema objects, the logger, and the directories and files on disk. *)
Record World := mkWorld {
  pathItem : OASPathItem;
  heap : gmap loc OASSchema;
  logged : list string;
  dirs : gset string;
  files : gmap string string
}.

Definition set_item (w : World) (i : OASPathItem) (σ : gmap loc OASSchema)
    : World :=
  mkWorld i σ (logged w) (dirs w) (files w).

Definition logError (msg : string) (w : World) : World :=
  mkWorld (pathItem w) (heap w) (logged w ++ [msg])%list (dirs w) (files w).

Definition addDir (d : string) (w : World) : World :=
  mkWorld (pathItem w) (heap w) (logged w) ({[d]} ∪ dirs w) (files w).

Definition writeFile (p content : string) (w : World) : World :=
  mkWorld (pathItem w) (heap w) (logged w) (dirs w) (<[p := content]> (files w)).

Definition stripCurlyBraces (path : string) : string :=
  let path := Replace path "{" EmptyString in
  let path := Replace path "}" EmptyString in
  path.

Definition replaceSlashesWithDashes (s : string) : string :=
  let s := if HasPrefix s "/" then substring 1 (String.length s - 1) s else s in
  Replace s "/" "-".

(** The lines of [toTemplateFriendly] that compute [prefix]. *)
Definition funcPrefix (path : string) : string :=
  let pathFields := Split path "/" in
  let prefix := hd EmptyString pathFields in
  let prefix :=
    if (1 <? length pathFields)%nat then List.last pathFields EmptyString
    else prefix in
  let prefix := stripCurlyBraces prefix in
  Replace prefix "_" EmptyString.

(** The message of [logger.Error] in the validation loop. *)
Definition unsupportedMessage (X : Env) (path ty name : string) : string :=
  "can't generate " +:+ Quote X path +:+ " because parameter type of "
  +:+ Quote X ty +:+ " for " +:+ name +:+ " is unsupported'".

(** The validation loop; the second component is what it logs. *)
Fixpoint validateParams (X : Env) (path : string) (σ : gmap loc OASSchema)
    (params : list OASParameter) : result () * list string :=
  match params with
  | [] => (Ok (), [])
  | param :: rest =>
      match param_Schema param with
      | None => (Panic, [])
      | Some l =>
          match σ !! l with
          | None => (Panic, [])
          | Some s =>
              if StrListContains supportedParamTypes (schema_Type s)
              then validateParams X path σ rest
              else (Err ErrUnsupported,
                    [unsupportedMessage X path (schema_Type s) (param_Name param)])
          end
      end
  end.

(** [sort.Slice] as an insertion sort on [less].  Go's sort is not stable;
    on a slice without two elements equal for [less] every sort gives the
    same result. *)
Fixpoint insertBy {A : Type} (less : A → A → bool) (x : A) (l : list A)
    : list A :=
  match l with
  | [] => [x]
  | y :: l' => if less x y then x :: y :: l' else y :: insertBy less x l'
  end.

Definition sort_Slice {A : Type} (less : A → A → bool) (l : list A) : list A :=
  foldl (λ sorted x, insertBy less x sorted) [] l.

Definition lessByName (p q : OASParameter) : bool :=
  String.ltb (param_Name p) (param_Name q).

Definition toTemplateFriendly (X : Env) (path parentDir : string) (w : World)
    : result templateFriendly * World :=
  let prefix := funcPrefix path in
  match appendPostParamsToTopLevel (pathItem w) (heap w) with
  | Panic => (Panic, w)
  | Err e => (Err e, w)
  | Ok (item1, σ1) =>
      let w1 := set_item w item1 σ1 in
      match validateParams X path σ1 (item_Parameters item1) with
      | (Panic, _) => (Panic, w1)
      | (Err e, msgs) => (Err e, fold_left (λ w m, logError m w) msgs w1)
      | (Ok _, _) =>
          let sorted := sort_Slice lessByName (item_Parameters item1) in
          let w2 := set_item w1 (set_Parameters item1 sorted) σ1 in
          match slice_from parentDir (LastIndex parentDir "/" + 1) with
          | None => (Panic, w2)
          | Some dirName =>
              (Ok (mkTemplateFriendly path dirName
                     (Title (ToLower prefix)) (ToLower prefix) sorted
                     (bool_decide (is_Some (item_Get item1)))
                     (bool_decide (is_Some (item_Post item1)))
                     (bool_decide (is_Some (item_Delete item1)))),
               w2)
          end
      end
  end.

(** ** parseTemplate, generateFile and the entry points *)

(** The third component is what [tmpl.Execute] wrote to [writer]. *)
Definition parseTemplate (X : Env) (fileType : FileType)
    (parentDir vaultPath : string) (w : World)
    : result () * World * string :=
  match templateParse X fileType with
  | Some e => (Err (ErrOther e), w, EmptyString)
  | None =>
      match toTemplateFriendly X vaultPath parentDir w with
      | (Ok tmplFriendly, w') =>
          let '(out, e) := templateExecute X fileType tmplFriendly (heap w') in
          (match e with Some e => Err (ErrOther e) | None => Ok () end, w', out)
      | (Err e, w') => (Err e, w', EmptyString)
      | (Panic, w') => (Panic, w', EmptyString)
      end
  end.

(** How the operating system answers the calls of one [generateFile]:
    [Some msg] is the error returned. *)
Record OSOutcome := mkOSOutcome {
  mkdirAllErr : option string;
  createErr : option string;
  flushErr : option string;
  closeErr : option string
}.

(** [wr] buffers what the template writes; the model takes it to the file
    at the deferred [wr.Flush()], which runs before the deferred
    [f.Close()], on every way out of the function after [os.Create]. *)
Definition generateFile (X : Env) (os : OSOutcome) (pathToFile : string)
    (fileType : FileType) (vaultPath : string) (w : World)
    : result () * World :=
  match slice_to pathToFile (LastIndex pathToFile "/") with
  | None => (Panic, w)
  | Some parentDir =>
      match mkdirAllErr os with
      | Some e => (Err (ErrOther e), w)
      | None =>
          let w := addDir parentDir w in
          match createErr os with
          | Some e => (Err (ErrOther e), w)
          | None =>
              let w := writeFile pathToFile EmptyString w in
              let '(r, w, out) :=
                parseTemplate X fileType parentDir vaultPath w in
              let w := match flushErr os with
                       | Some e => logError e w
                       | None => writeFile pathToFile out w
                       end in
              let w := match closeErr os with
                       | Some e => logError e w
                       | None => w
                       end in
              (r, w)
          end
      end
  end.

Definition codePath (X : Env) (fileType : FileType) (path : string) : string :=
  stripCurlyBraces
    (pathToHomeDir X +:+ "/generated/" +:+ fileTypeString X fileType
     +:+ path +:+ ".go").

Definition docPath (X : Env) (fileType : FileType) (path : string) : string :=
  stripCurlyBraces
    (pathToHomeDir X +:+ "/website/docs/generated/"
     +:+ fileTypeString X fileType +:+ "/"
     +:+ replaceSlashesWithDashes path +:+ ".md").

Definition generateCode (X : Env) (os : OSOutcome) (fileType : FileType)
    (path : string) (w : World) : result () * World :=
  generateFile X os (codePath X fileType path) fileType path w.

Definition generateDoc (X : Env) (os : OSOutcome) (fileType : FileType)
    (path : string) (w : World) : result () * World :=
  generateFile X os (docPath X fileType path) FileTypeDoc path w.

(** [osCode] and [osDoc] answer the two calls of [generateFile]. *)
Definition GenerateFiles (X : Env) (osCode osDoc : OSOutcome)
    (fileType : FileType) (vaultPath : string) (w : World)
    : result () * World :=
  match generateCode X osCode fileType vaultPath w with
  | (Ok _, w') => generateDoc X osDoc fileType vaultPath w'
  | (r, w') => (r, w')
  end.

(** ** Reference definitions, in the words of the specification *)

(** The bytes of [s] that satisfy [f], in order. *)
Fixpoint keep (f : ascii → bool) (s : string) : string :=
  match s with
  | EmptyString => EmptyString
  | String c s' => if f c then String c (keep f s') else keep f s'
  end.

(** [s] with [f] applied to every byte. *)
Fixpoint each (f : ascii → ascii) (s : string) : string :=
  match s with
  | EmptyString => EmptyString
  | String c s' => String (f c) (each f s')
  end.

(** Whether the byte [c] occurs in [s]. *)
Fixpoint occurs (c : ascii) (s : string) : bool :=
  match s with
  | EmptyString => false
  | String d s' => Ascii.eqb d c || occurs c s'
  end.

(** The segments joined by the separator again. *)
Fixpoint join (sep : string) (l : list string) : string :=
  match l with
  | [] => EmptyString
  | [x] => x
  | x :: rest => x +:+ sep +:+ join sep rest
  end.

(** [seg] is the last segment of [path]: it holds no separator and is the
    whole path or what follows its last separator. *)
Definition is_last_segment (path seg : string) : Prop :=
  occurs "/" seg = false ∧ (path = seg ∨ ∃ pre, path = pre +:+ "/" +:+ seg).

Definition is_brace (c : ascii) : bool := Ascii.eqb c "{" || Ascii.eqb c "}".


Definition spec_stripBraces (s : string) : string :=
  keep (λ c, negb (is_brace c)) s.

Definition spec_dropLeadingSlash (s : string) : string :=
  match s with
  | String c s' => if Ascii.eqb c "/" then s' else s
  | EmptyString => s
  end.

(** The flat documentation name of an endpoint: leading separator dropped,
    remaining separators as dashes, brace markers stripped. *)
Definition spec_docName (path : string) : string :=
  each (λ c, if Ascii.eqb c "/" then "-"%char else c)
    (spec_stripBraces (spec_dropLeadingSlash path)).


(** ** Schema objects over a run *)

(** A schema after [if s.DisplayAttrs == nil { s.DisplayAttrs = ... }]. *)
Definition ensured (s : OASSchema) : OASSchema :=
  match schema_DisplayAttrs s with
  | None => set_DisplayAttrs s
  | Some _ => s
  end.

(** The object at [l] exists and has display attributes. *)
Definition filled (σ : gmap loc OASSchema) (l : loc) : Prop :=
  ∃ s, σ !! l = Some s ∧ is_Some (schema_DisplayAttrs s).

(** From [σ] to [σ'] an object is kept or has its absent display
    attributes set; a new object is the zero schema with display
    attributes. *)
Definition evolves (σ σ' : gmap loc OASSchema) : Prop :=
  ∀ l, match σ !! l with
       | Some s => σ' !! l = Some s ∨ σ' !! l = Some (ensured s)
       | None => σ' !! l = None ∨ σ' !! l = Some (ensured zeroSchema)
       end.

(** What holds of a parameter appended by a step that started with the
    names [u] and ended with the store [σ']; [Q] says where its name came
    from. *)
Definition appended_ok (Q : string → Prop) (u : gset string)
    (σ' : gmap loc OASSchema) (p : OASParameter) : Prop :=
  Q (param_Name p) ∧ (param_Name p ∉ u) ∧ param_In p = "post"
  ∧ ∃ l s, param_Schema p = Some l ∧ σ' !! l = Some s
           ∧ is_Some (schema_DisplayAttrs s)
           ∧ param_Description p = schema_Description s.

(** One or more steps of the second loop. *)
Definition merges (Q : string → Prop) (st st' : merge_state) : Prop :=
  ∃ added,
    st'.1.1 = ((st.1.1) ++ added)%list
    ∧ st'.2 = list_to_set (map param_Name added) ∪ st.2
    ∧ evolves st.1.2 st'.1.2
    ∧ NoDup (map param_Name added)
    ∧ Forall (appended_ok Q st.2 st'.1.2) added.

(** The media type object of [entry] is present and every property name
    of its schema is in [u]. *)
Definition covered (σ : gmap loc OASSchema) (u : gset string)
    (entry : string * option OASMediaTypeObject) : Prop :=
  ∃ m, entry.2 = Some m
       ∧ ∀ l, media_Schema m = Some l →
           ∃ s, σ !! l = Some s
                ∧ ∀ n sch, (n, sch) ∈ schema_Properties s → n ∈ u.

(** [n] names a property of a schema of the POST request body. *)
Definition content_property (σ : gmap loc OASSchema)
    (content : list (string * option OASMediaTypeObject)) (n : string)
    : Prop :=
  ∃ key m l s sch,
    (key, Some m) ∈ content ∧ media_Schema m = Some l ∧ σ !! l = Some s
    ∧ (n, sch) ∈ schema_Properties s.

(** The content of the POST request body, when all of [Post],
    [RequestBody] and [Content] are present. *)
Definition post_content (pathItem : OASPathItem)
    : option (list (string * option OASMediaTypeObject)) :=
  post ← item_Post pathItem; body ← op_RequestBody post; body_Content body.

Definition body_property (pathItem : OASPathItem) (σ : gmap loc OASSchema)
    (n : string) : Prop :=
  ∃ content, post_content pathItem = Some content
             ∧ content_property σ content n.

(** A parameter has a schema object with display attributes. *)
Definition normalized (σ : gmap loc OASSchema) (p : OASParameter) : Prop :=
  ∃ l, param_Schema p = Some l ∧ filled σ l.

(** ** The type validator, in the words of the specification *)

(** The parameter has a schema whose type tag is one of the supported
    ones. *)
Definition supported (σ : gmap loc OASSchema) (p : OASParameter) : Prop :=
  ∃ l s, param_Schema p = Some l ∧ σ !! l = Some s
         ∧ schema_Type s ∈ supportedParamTypes.

(** The parameter has a schema whose type tag is not a supported one. *)
Definition unsupported (σ : gmap loc OASSchema) (p : OASParameter) : Prop :=
  ∃ l s, param_Schema p = Some l ∧ σ !! l = Some s
         ∧ schema_Type s ∉ supportedParamTypes.

Definition has_schema (σ : gmap loc OASSchema) (p : OASParameter) : Prop :=
  ∃ l s, param_Schema p = Some l ∧ σ !! l = Some s.

(** The strict lexicographic order of parameter names, byte by byte. *)
Definition name_lt (p q : OASParameter) : Prop :=
  String_as_OT.lt (param_Name p) (param_Name q).

(** The state of the second loop with [ps0] put before its parameters. *)
Definition prepend (ps0 : list OASParameter) (st : merge_state) : merge_state :=
  ((ps0 ++ st.1.1)%list, st.1.2, st.2).


(** ** Concrete endpoints for the examples *)

Definition exampleEnv : Env :=
  mkEnv "/src/terraform-provider-vault"
    (λ fileType, match fileType with
                 | FileTypeDataSource => "datasource"
                 | FileTypeResource => "resource"
                 | FileTypeDoc => "doc"
                 end)
    (λ _, None)
    (λ _ tmplFriendly _, ("// " +:+ Endpoint tmplFriendly, None))
    (λ s, "'" +:+ s +:+ "'").

(** Every call of the operating system succeeds. *)
Definition osFine : OSOutcome := mkOSOutcome None None None None.

(** The flush and the close fail. *)
Definition osNoFlushNoClose : OSOutcome :=
  mkOSOutcome None None (Some "short write") (Some "file already closed").

Definition nameSchema : OASSchema :=
  mkOASSchema "string" "The name of the role." [] None.

Definition transformationsSchema : OASSchema :=
  mkOASSchema "array" "The transformations." []
    (Some (mkDisplayAttributes "Transformations" false EmptyString)).

Definition bodyNameSchema : OASSchema :=
  mkOASSchema "string" "The name, in the body." [] None.

Definition settingsSchema : OASSchema :=
  mkOASSchema "object" "Free-form settings." [] None.

Definition bodySchema : OASSchema :=
  mkOASSchema "object" "The request body."
    [("transformations", Some 2%positive); ("name", Some 3%positive);
     ("allowed", Some 1%positive)] None.

(** The schema objects of the examples: [1], [2] and [3] are supported,
    [4] is of type [object], [5] is the schema of a request body. *)
Definition exampleHeap : gmap loc OASSchema :=
  {[ 1%positive := nameSchema; 2%positive := transformationsSchema;
     3%positive := bodyNameSchema; 4%positive := settingsSchema;
     5%positive := bodySchema ]}.

Definition nameParam : OASParameter :=
  mkOASParameter "name" "The name of the role." "path" (Some 1%positive)
    true false.

Definition zoneParam : OASParameter :=
  mkOASParameter "zone" "The zone." "path" (Some 3%positive) false false.

Definition settingsParam : OASParameter :=
  mkOASParameter "settings" "Free-form settings." "path" (Some 4%positive)
    false false.

Definition bareParam : OASParameter :=
  mkOASParameter "bare" "No schema." "path" None false false.

Definition jsonBody : OASOperation :=
  mkOASOperation "Create or update"
    (Some (mkOASRequestBody "body"
             (Some [("application/json",
                     Some (mkOASMediaTypeObject (Some 5%positive)))]))).

Definition emptyBody : OASOperation :=
  mkOASOperation "Create or update" (Some (mkOASRequestBody "body" (Some []))).

Definition plainOperation : OASOperation := mkOASOperation "Read" None.

(** [/transform/role/{name}]: read, write and delete; [name] is both a
    top-level parameter and a property of the body. *)
Definition roleItem : OASPathItem :=
  mkOASPathItem "role" [zoneParam; nameParam] (Some plainOperation)
    (Some jsonBody) (Some plainOperation).

(** Read only. *)
Definition readOnlyItem : OASPathItem :=
  mkOASPathItem "read only" [nameParam] (Some plainOperation) None None.

(** A parameter of type [object]. *)
Definition objectItem : OASPathItem :=
  mkOASPathItem "object" [nameParam; settingsParam] (Some plainOperation)
    None None.

(** A parameter without schema before one of type [object], with a POST
    body whose content map is empty. *)
Definition bareItem : OASPathItem :=
  mkOASPathItem "bare" [bareParam; settingsParam] None (Some emptyBody) None.

Definition worldOf (pathItem : OASPathItem) : World :=
  mkWorld pathItem exampleHeap [] ∅ ∅.

Definition transformationsParam : OASParameter :=
  mkOASParameter "transformations" "The transformations." "post"
    (Some 2%positive) false false.

Definition allowedParam : OASParameter :=
  mkOASParameter "allowed" "The name of the role." "post" (Some 1%positive)
    false false.

(** What the extraction makes of [roleItem] and [exampleHeap]. *)
Definition roleMerged : OASPathItem :=
  set_Parameters roleItem
    [zoneParam; nameParam; transformationsParam; allowedParam].

Definition roleHeap : gmap loc OASSchema :=
  <[1%positive := set_DisplayAttrs nameSchema]>
    (<[3%positive := set_DisplayAttrs bodyNameSchema]> exampleHeap).

Definition rolePath : string := "/transform/role/{name}".
Definition roleDir : string :=
  "/src/terraform-provider-vault/generated/resource/transform/role".
Definition roleFile : string :=
  "/src/terraform-provider-vault/generated/resource/transform/role/name.go".

Definition roleContext : templateFriendly :=
  mkTemplateFriendly rolePath "role" "Name" "name"
    [allowedParam; nameParam; transformationsParam; zoneParam]
    true true true.

Definition readOnlyPath : string := "/transform/{name}".
Definition readOnlyDir : string :=
  "/src/terraform-provider-vault/generated/datasource/transform".

Definition readOnlyContext : templateFriendly :=
  mkTemplateFriendly readOnlyPath "transform" "Name" "name" [nameParam]
    true false false.

Definition objectPath : string := "/transform/object/{name}".
Definition objectDir : string :=
  "/src/terraform-provider-vault/generated/resource/transform/object".

(** What the extraction makes of [bareItem] and [exampleHeap]: the
    parameters are as they were. *)
Definition bareHeap : gmap loc OASSchema :=
  <[4%positive := set_DisplayAttrs settingsSchema]> exampleHeap.

(** The state after [toTemplateFriendly] on [roleItem]. *)
Definition roleAfter : World :=
  mkWorld (set_Parameters roleItem (Parameters roleContext)) roleHeap [] ∅ ∅.

Definition roleItemSwapped : World :=
  set_item (worldOf roleItem)
    (set_Parameters roleItem [nameParam; zoneParam]) exampleHeap.

(** ** Well-formed inputs *)

(** Every reference is to an object of the store, and no media type
    object is nil: what a Go heap gives once the content map holds no nil
    pointer. *)
Definition refs_ok (σ : gmap loc OASSchema) (o : option loc) : Prop :=
  ∀ l, o = Some l → is_Some (σ !! l).

Definition media_ok (σ : gmap loc OASSchema)
    (entry : string * option OASMediaTypeObject) : Prop :=
  ∃ m, entry.2 = Some m
       ∧ ∀ l, media_Schema m = Some l →
           ∃ s, σ !! l = Some s
                ∧ Forall (λ prop, refs_ok σ prop.2) (schema_Properties s).

Definition well_formed (pathItem : OASPathItem) (σ : gmap loc OASSchema)
    : Prop :=
  Forall (λ p, refs_ok σ (param_Schema p)) (item_Parameters pathItem)
  ∧ match post_content pathItem with
    | Some content => Forall (media_ok σ) content
    | None => True
    end.

(** ** Another order of iteration *)

(** The same schema, with its properties in another order. *)
Definition schema_reordered (s s' : OASSchema) : Prop :=
  schema_Type s' = schema_Type s
  ∧ schema_Description s' = schema_Description s
  ∧ schema_DisplayAttrs s' = schema_DisplayAttrs s
  ∧ schema_Properties s ≡ₚ schema_Properties s'.

Definition heap_reordered (σ σ' : gmap loc OASSchema) : Prop :=
  ∀ l, match σ !! l, σ' !! l with
       | Some s, Some s' => schema_reordered s s'
       | None, None => True
       | _, _ => False
       end.

(** The same top-level parameters, and the content map of the POST body
    in another order. *)
Definition item_reordered (i i' : OASPathItem) : Prop :=
  item_Parameters i' = item_Parameters i
  ∧ match post_content i, post_content i' with
    | Some content, Some content' => content ≡ₚ content'
    | None, None => True
    | _, _ => False
    end.

(** ** The rendering context of a descriptor *)


(** ** The file system of a world *)

(** [w] with the directories [d] and the files [f]. *)
Definition with_fs (w : World) (d : gset string) (f : gmap string string)
    : World :=
  mkWorld (pathItem w) (heap w) (logged w) d f.

(** The last byte of a string. *)
Fixpoint lastByte (s : string) : option ascii :=
  match s with
  | EmptyString => None
  | String c s' =>
      match lastByte s' with
      | None => Some c
      | Some d => Some d
      end
  end.

(** The directory of the documentation files of a file type. *)
Definition docDir (X : Env) (fileType : FileType) : string :=
  stripCurlyBraces (pathToHomeDir X) +:+ "/website/docs/generated/"
  +:+ stripCurlyBraces (fileTypeString X fileType).



(** ** The package variable [pathToHomeDir] *)

Definition repoName : string := "terraform-provider-vault".

(** [strings.Split(s, sep)[0]] for a [sep] that is not empty: [s] up to
    the first occurrence of [sep], all of [s] when there is none. *)
Fixpoint beforeFirst (s sep : string) : string :=
  match s with
  | EmptyString => EmptyString
  | String c s' =>
      if HasPrefix (String c s') sep then EmptyString
      else String c (beforeFirst s' sep)
  end.

(** The function that initializes [pathToHomeDir], on the working
    directory [wd] that [os.Getwd] returned (the empty string with its
    error, which is dropped). *)
Definition pathToHomeDir_init (wd : string) : string :=
  let pathParts0 := beforeFirst wd repoName in
  pathParts0 +:+ repoName.

(** [sep] occurs in [s]. *)
Definition contains (s sep : string) : Prop :=
  ∃ pre tail, s = pre +:+ sep +:+ tail.

(** ** Where an appended parameter comes from *)

(** [(n, sch)] is a property of a schema of the content map. *)
Definition property_of (σ : gmap loc OASSchema)
    (content : list (string * option OASMediaTypeObject)) (n : string)
    (sch : option loc) : Prop :=
  ∃ key m l s,
    (key, Some m) ∈ content ∧ media_Schema m = Some l ∧ σ !! l = Some s
    ∧ (n, sch) ∈ schema_Properties s.

(** [p] was made from the property [(n, sch)]: it has its name, the
    location [post] and the description of its schema, and it refers to
    the very schema object of the property, or, for a property without
    schema, to a zero schema with empty display attributes. *)
Definition made_from (σ' : gmap loc OASSchema) (p : OASParameter)
    (n : string) (sch : option loc) : Prop :=
  param_Name p = n ∧ param_In p = "post"
  ∧ param_Required p = false ∧ param_Deprecated p = false
  ∧ ∃ l s, param_Schema p = Some l ∧ σ' !! l = Some s
           ∧ is_Some (schema_DisplayAttrs s)
           ∧ param_Description p = schema_Description s
           ∧ match sch with
             | Some l0 => l = l0
             | None => s = set_DisplayAttrs zeroSchema
             end.

(** Steps of the second loop, with the property of each appended
    parameter. *)
Definition lifts (R : string → option loc → Prop) (st st' : merge_state)
    : Prop :=
  ∃ added,
    st'.1.1 = ((st.1.1) ++ added)%list
    ∧ evolves st.1.2 st'.1.2
    ∧ Forall (λ p, ∃ n sch, R n sch ∧ made_from st'.1.2 p n sch) added.

(** ** Further concrete endpoints *)

(** A POST body whose content map holds a nil media type object. *)
Definition nilMediaItem : OASPathItem :=
  mkOASPathItem "nil media" [nameParam] None
    (Some (mkOASOperation "Create"
             (Some (mkOASRequestBody "body"
                      (Some [("application/json",
                              Some (mkOASMediaTypeObject (Some 5%positive)));
                             ("text/plain", None)])))))
    None.

(** A POST body with a property [flag] that has no schema. *)
Definition looseBodySchema : OASSchema :=
  mkOASSchema "object" "A body with a bare property."
    [("flag", None)] None.

Definition looseHeap : gmap loc OASSchema :=
  <[6%positive := looseBodySchema]> exampleHeap.

Definition looseContent : list (string * option OASMediaTypeObject) :=
  [("application/json", Some (mkOASMediaTypeObject (Some 6%positive)))].

Definition looseItem : OASPathItem :=
  mkOASPathItem "loose" [nameParam] None
    (Some (mkOASOperation "Create"
             (Some (mkOASRequestBody "body" (Some looseContent)))))
    None.

Definition looseWorld : World := mkWorld looseItem looseHeap [] ∅ ∅.

Definition roleDocDir : string :=
  "/src/terraform-provider-vault/website/docs/generated/resource".


Definition exampleWd : string := "/home/dev/terraform-provider-vault/codegen".
Definition exampleHome : string := "/home/dev/terraform-provider-vault".
(** * Properties *)

(** A decidable proposition about concrete data, by evaluation. *)
Ltac by_evaluation := apply (bool_decide_unpack _); vm_compute; exact I.

(** ** Strings *)

Lemma append_nil_l (b : string) : EmptyString +:+ b = b.
Proof. reflexivity. Qed.

Lemma append_cons (x : ascii) (a b : string) :
  String x a +:+ b = String x (a +:+ b).
Proof. reflexivity. Qed.

Lemma append_assoc (a b c : string) : (a +:+ b) +:+ c = a +:+ (b +:+ c).
Proof.
  induction a as [|x a IH]; [done |]. by rewrite !append_cons, IH.
Qed.

Lemma append_empty_r (a : string) : a +:+ EmptyString = a.
Proof. induction a as [|x a IH]; [done |]. by rewrite append_cons, IH. Qed.

Lemma Replace_app (a b : string) (c : ascii) (n : string) :
  Replace (a +:+ b) c n = Replace a c n +:+ Replace b c n.
Proof.
  induction a as [|x a IH]; [done |]. rewrite append_cons. simpl.
  destruct (Ascii.eqb x c); rewrite IH; [by rewrite append_assoc | done].
Qed.

Lemma Replace_empty_keep (s : string) (c : ascii) :
  Replace s c EmptyString = keep (λ x, negb (Ascii.eqb x c)) s.
Proof.
  induction s as [|x s IH]; simpl; [done |].
  destruct (Ascii.eqb x c); simpl; by rewrite IH.
Qed.

Lemma Replace_byte_each (s : string) (c d : ascii) :
  Replace s c (String d EmptyString)
  = each (λ x, if Ascii.eqb x c then d else x) s.
Proof.
  induction s as [|x s IH]; simpl; [done |].
  destruct (Ascii.eqb x c); simpl; by rewrite IH.
Qed.

Lemma keep_keep (f g : ascii → bool) (s : string) :
  keep f (keep g s) = keep (λ x, g x && f x) s.
Proof.
  induction s as [|x s IH]; simpl; [done |].
  destruct (g x); simpl; [destruct (f x) |]; by rewrite IH.
Qed.

Lemma keep_ext (f g : ascii → bool) (s : string) :
  (∀ x, f x = g x) → keep f s = keep g s.
Proof.
  intros E. induction s as [|x s IH]; simpl; [done |]. by rewrite E, IH.
Qed.

Lemma keep_app (f : ascii → bool) (a b : string) :
  keep f (a +:+ b) = keep f a +:+ keep f b.
Proof.
  induction a as [|x a IH]; [done |]. rewrite append_cons. simpl.
  destruct (f x); by rewrite IH.
Qed.

Lemma occurs_keep (f : ascii → bool) (c : ascii) (s : string) :
  f c = false → occurs c (keep f s) = false.
Proof.
  intros Hf. induction s as [|x s IH]; simpl; [done |].
  destruct (f x) eqn:Hx; simpl; [| done].
  rewrite IH, orb_false_r. apply Ascii.eqb_neq. intros ->. congruence.
Qed.

Lemma occurs_app (c : ascii) (a b : string) :
  occurs c (a +:+ b) = occurs c a || occurs c b.
Proof.
  induction a as [|x a IH]; [done |]. rewrite append_cons. simpl.
  by rewrite IH, orb_assoc.
Qed.

Lemma occurs_each (f : ascii → ascii) (c : ascii) (s : string) :
  (∀ x, f x ≠ c) → occurs c (each f s) = false.
Proof.
  intros Hf. induction s as [|x s IH]; simpl; [done |].
  rewrite IH, orb_false_r. by apply Ascii.eqb_neq.
Qed.

Lemma each_keep_comm (f : ascii → ascii) (g : ascii → bool) (s : string) :
  (∀ x, g (f x) = g x) → keep g (each f s) = each f (keep g s).
Proof.
  intros E. induction s as [|x s IH]; simpl; [done |].
  rewrite E. destruct (g x); simpl; by rewrite IH.
Qed.

Lemma stripCurlyBraces_spec (s : string) :
  stripCurlyBraces s = spec_stripBraces s.
Proof.
  unfold stripCurlyBraces, spec_stripBraces.
  rewrite !Replace_empty_keep, keep_keep. apply keep_ext.
  intros x. unfold is_brace. by rewrite negb_orb.
Qed.

Lemma stripCurlyBraces_app (a b : string) :
  stripCurlyBraces (a +:+ b) = stripCurlyBraces a +:+ stripCurlyBraces b.
Proof. rewrite !stripCurlyBraces_spec. apply keep_app. Qed.

Lemma stripCurlyBraces_no_brace (s : string) (c : ascii) :
  is_brace c = true → occurs c (stripCurlyBraces s) = false.
Proof.
  intros Hc. rewrite stripCurlyBraces_spec. apply occurs_keep. by rewrite Hc.
Qed.

Lemma substring_tail (c : ascii) (s : string) :
  substring 1 (String.length (String c s) - 1) (String c s) = s.
Proof.
  simpl. rewrite Nat.sub_0_r.
  induction s as [|x s IH]; simpl; [done | by rewrite IH].
Qed.

Lemma replaceSlashesWithDashes_spec (path : string) :
  stripCurlyBraces (replaceSlashesWithDashes path) = spec_docName path.
Proof.
  unfold replaceSlashesWithDashes, spec_docName.
  assert (E : (if HasPrefix path "/"
               then substring 1 (String.length path - 1) path else path)
              = spec_dropLeadingSlash path).
  { destruct path as [|c s]; [done |].
    unfold spec_dropLeadingSlash.
    destruct (Ascii.eqb_spec c "/") as [->|Hne].
    - rewrite substring_tail. by destruct s.
    - change (HasPrefix (String c s) "/")
        with (Ascii.eqb "/" c && HasPrefix s EmptyString).
      by rewrite (proj2 (Ascii.eqb_neq "/" c)) by congruence. }
  rewrite E, stripCurlyBraces_spec, Replace_byte_each.
  unfold spec_stripBraces. apply each_keep_comm.
  intros x. destruct (Ascii.eqb x "/") eqn:Hx; [| done].
  apply Ascii.eqb_eq in Hx. by subst.
Qed.

(** C8: the documentation file of an endpoint is named by the endpoint
    path with its leading separator dropped, the remaining separators
    turned into dashes and the brace markers stripped, so that
    [/transform/transformation/{name}] gives
    [transform-transformation-name]; the name is flat and brace-free, and
    the path of the code file of the same endpoint holds no brace marker
    either. *)
Theorem doc_and_code_path_mapping (X : Env) (fileType : FileType)
    (path : string) :
  docPath X fileType path
    = stripCurlyBraces (pathToHomeDir X) +:+ "/website/docs/generated/"
      +:+ stripCurlyBraces (fileTypeString X fileType) +:+ "/"
      +:+ spec_docName path +:+ ".md"
  ∧ occurs "/" (spec_docName path) = false
  ∧ spec_docName "/transform/transformation/{name}"
    = "transform-transformation-name"
  ∧ codePath X fileType path
    = stripCurlyBraces (pathToHomeDir X) +:+ "/generated/"
      +:+ stripCurlyBraces (fileTypeString X fileType)
      +:+ spec_stripBraces path +:+ ".go"
  ∧ occurs "{" (docPath X fileType path) = false
  ∧ occurs "}" (docPath X fileType path) = false
  ∧ occurs "{" (codePath X fileType path) = false
  ∧ occurs "}" (codePath X fileType path) = false.
Proof.
  split_and!.
  - unfold docPath. rewrite !stripCurlyBraces_app.
    by rewrite replaceSlashesWithDashes_spec.
  - unfold spec_docName. apply occurs_each. intros x.
    destruct (Ascii.eqb x "/") eqn:Hx; [done |]. by apply Ascii.eqb_neq.
  - reflexivity.
  - unfold codePath. rewrite !stripCurlyBraces_app.
    by rewrite (stripCurlyBraces_spec path).
  - by apply stripCurlyBraces_no_brace.
  - by apply stripCurlyBraces_no_brace.
  - by apply stripCurlyBraces_no_brace.
  - by apply stripCurlyBraces_no_brace.
Qed.

Lemma Split_nonempty (s : string) (c : ascii) : Split s c ≠ [].
Proof.
  destruct s as [|x s]; simpl; [done |].
  destruct (Ascii.eqb x c); [done |]. by destruct (Split s c).
Qed.

Lemma Split_occurs (s : string) (c : ascii) :
  Forall (λ seg, occurs c seg = false) (Split s c).
Proof.
  induction s as [|x s IH]; simpl.
  - by repeat constructor.
  - destruct (Ascii.eqb x c) eqn:Hx; [by constructor |].
    destruct (Split s c) as [|seg rest].
    + repeat constructor. simpl. by rewrite Hx.
    + inversion_clear IH. constructor; [| done]. simpl. by rewrite Hx.
Qed.

Lemma Split_join (s : string) (c : ascii) :
  join (String c EmptyString) (Split s c) = s.
Proof.
  induction s as [|x s IH]; simpl; [done |].
  destruct (Ascii.eqb_spec x c) as [->|Hne].
  - pose proof (Split_nonempty s c).
    destruct (Split s c) as [|seg rest] eqn:E; [done |].
    change (join (String c EmptyString) (EmptyString :: seg :: rest))
      with (String c (join (String c EmptyString) (seg :: rest))).
    by rewrite IH.
  - pose proof (Split_nonempty s c).
    destruct (Split s c) as [|seg rest] eqn:E; [done |].
    rewrite <- IH. by destruct rest.
Qed.

Lemma join_snoc (sep : string) (l : list string) (seg : string) :
  l ≠ [] → join sep (l ++ [seg])%list = join sep l +:+ sep +:+ seg.
Proof.
  induction l as [|x l IH]; [done |]. intros _.
  destruct l as [|y l]; [done |].
  change (join sep ((x :: y :: l) ++ [seg])%list)
    with (x +:+ sep +:+ join sep ((y :: l) ++ [seg])%list).
  rewrite IH by done.
  change (join sep (x :: y :: l)) with (x +:+ sep +:+ join sep (y :: l)).
  by rewrite !append_assoc.
Qed.

Lemma last_segment_Split (path : string) :
  is_last_segment path (List.last (Split path "/") EmptyString).
Proof.
  pose proof (Split_nonempty path "/") as Hne.
  pose proof (Split_occurs path "/") as Hocc.
  pose proof (Split_join path "/") as Hjoin.
  destruct (exists_last Hne) as (init & seg & E). rewrite E in *.
  rewrite last_last. split.
  - apply Forall_app in Hocc as [_ Hseg]. by inversion_clear Hseg.
  - destruct init as [|x init]; [by left |]. right.
    rewrite join_snoc in Hjoin by done. eauto.
Qed.






(** What a successful [toTemplateFriendly] went through. *)
Lemma toTemplateFriendly_Ok (X : Env) (path parentDir : string)
    (w w' : World) (ctx : templateFriendly) :
  toTemplateFriendly X path parentDir w = (Ok ctx, w') →
  ∃ item1 σ1 dirName,
    appendPostParamsToTopLevel (pathItem w) (heap w) = Ok (item1, σ1)
    ∧ (validateParams X path σ1 (item_Parameters item1)).1 = Ok ()
    ∧ slice_from parentDir (LastIndex parentDir "/" + 1) = Some dirName
    ∧ ctx = mkTemplateFriendly path dirName
              (Title (ToLower (funcPrefix path))) (ToLower (funcPrefix path))
              (sort_Slice lessByName (item_Parameters item1))
              (bool_decide (is_Some (item_Get item1)))
              (bool_decide (is_Some (item_Post item1)))
              (bool_decide (is_Some (item_Delete item1)))
    ∧ w' = set_item (set_item w item1 σ1)
             (set_Parameters item1
                (sort_Slice lessByName (item_Parameters item1))) σ1.
Proof.
  unfold toTemplateFriendly. intros H.
  destruct (appendPostParamsToTopLevel (pathItem w) (heap w))
    as [[item1 σ1]| |]; [| done..].
  destruct (validateParams X path σ1 (item_Parameters item1))
    as [[[]| |] msgs] eqn:Hv; [| done..].
  destruct (slice_from parentDir (LastIndex parentDir "/" + 1))
    as [dirName|]; [| done].
  inversion H; subst. exists item1, σ1, dirName. by rewrite Hv.
Qed.


(** ** Schema objects over a run *)

Lemma ensured_idemp (s : OASSchema) : ensured (ensured s) = ensured s.
Proof. unfold ensured. by destruct s as [t d p [a|]]. Qed.

Lemma ensured_id (s : OASSchema) :
  is_Some (schema_DisplayAttrs s) → ensured s = s.
Proof. unfold ensured. by intros [a ->]. Qed.

Lemma ensured_filled (s : OASSchema) :
  is_Some (schema_DisplayAttrs (ensured s)).
Proof. unfold ensured. destruct s as [t d p [a|]]; simpl; eauto. Qed.

Lemma ensured_Properties (s : OASSchema) :
  schema_Properties (ensured s) = schema_Properties s.
Proof. unfold ensured. by destruct (schema_DisplayAttrs s). Qed.

Lemma ensured_Type (s : OASSchema) : schema_Type (ensured s) = schema_Type s.
Proof. unfold ensured. by destruct (schema_DisplayAttrs s). Qed.

Lemma ensured_Description (s : OASSchema) :
  schema_Description (ensured s) = schema_Description s.
Proof. unfold ensured. by destruct (schema_DisplayAttrs s). Qed.

Lemma ensureDisplayAttrs_eq (l : loc) (σ : gmap loc OASSchema) :
  ensureDisplayAttrs l σ
  = match σ !! l with
    | None => Panic
    | Some s => Ok (ensured s, <[l := ensured s]> σ)
    end.
Proof.
  unfold ensureDisplayAttrs, ensured.
  destruct (σ !! l) as [s|] eqn:E; [| done].
  destruct (schema_DisplayAttrs s); [| done]. by rewrite insert_id.
Qed.

#[export] Instance evolves_refl : Reflexive evolves.
Proof. intros σ l. destruct (σ !! l); auto. Qed.

#[export] Instance evolves_trans : Transitive evolves.
Proof.
  intros σ1 σ2 σ3 H12 H23 l. specialize (H12 l). specialize (H23 l).
  destruct (σ1 !! l) as [s|]; destruct H12 as [E|E]; rewrite E in H23;
    rewrite ?ensured_idemp in H23; tauto.
Qed.

Lemma evolves_insert (l : loc) (s : OASSchema) (σ : gmap loc OASSchema) :
  σ !! l = Some s → evolves σ (<[l := ensured s]> σ).
Proof.
  intros E l'. destruct (decide (l = l')) as [<-|Hne].
  - rewrite E, lookup_insert_eq. auto.
  - rewrite lookup_insert_ne by done. destruct (σ !! l'); auto.
Qed.

Lemma evolves_alloc (σ : gmap loc OASSchema) :
  evolves σ (<[fresh (dom σ) := ensured zeroSchema]> σ).
Proof.
  intros l'. destruct (decide (fresh (dom σ) = l')) as [<-|Hne].
  - rewrite lookup_insert_eq.
    assert (σ !! fresh (dom σ) = None) as ->; [| auto].
    apply not_elem_of_dom, is_fresh.
  - rewrite lookup_insert_ne by done. destruct (σ !! l'); auto.
Qed.

Lemma evolves_lookup (σ σ' : gmap loc OASSchema) (l : loc) (s : OASSchema) :
  evolves σ σ' → σ !! l = Some s →
  ∃ s', σ' !! l = Some s' ∧ (s' = s ∨ s' = ensured s).
Proof.
  intros Hev E. specialize (Hev l). rewrite E in Hev.
  destruct Hev; eauto.
Qed.

Lemma evolves_lookup_Properties (σ σ' : gmap loc OASSchema) (l : loc)
    (s : OASSchema) :
  evolves σ σ' → σ !! l = Some s →
  ∃ s', σ' !! l = Some s' ∧ schema_Properties s' = schema_Properties s.
Proof.
  intros Hev E. destruct (evolves_lookup _ _ _ _ Hev E) as (s' & E' & [->| ->]);
    eauto using ensured_Properties.
Qed.

Lemma evolves_keeps_filled (σ σ' : gmap loc OASSchema) (l : loc)
    (s : OASSchema) :
  evolves σ σ' → σ !! l = Some s → is_Some (schema_DisplayAttrs s) →
  σ' !! l = Some s.
Proof.
  intros H E Hs. destruct (evolves_lookup _ _ _ _ H E) as (s' & E' & [->| ->]);
    by rewrite ?ensured_id in E'.
Qed.

Lemma evolves_filled (σ σ' : gmap loc OASSchema) (l : loc) :
  evolves σ σ' → filled σ l → filled σ' l.
Proof.
  intros H (s & E & Hs). exists s. eauto using evolves_keeps_filled.
Qed.

Lemma evolves_back (σ σ' : gmap loc OASSchema) (l : loc) (s' : OASSchema) :
  evolves σ σ' → σ' !! l = Some s' →
  (∃ s, σ !! l = Some s ∧ schema_Properties s = schema_Properties s')
  ∨ schema_Properties s' = [].
Proof.
  intros H E'. specialize (H l). destruct (σ !! l) as [s|].
  - left. exists s. split; [done |].
    destruct H as [E|E]; rewrite E in E'; simplify_eq;
      by rewrite ?ensured_Properties.
  - right. destruct H as [E|E]; rewrite E in E'; by simplify_eq.
Qed.

(** ** Loops *)

Arguments seeParam : simpl never.
Arguments addProperty : simpl never.
Arguments addMediaType : simpl never.
Arguments StrListContains : simpl never.

Lemma bind_Ok {A B : Type} (a : A) (f : A → result B) : (x ← Ok a; f x) = f a.
Proof. reflexivity. Qed.

Lemma bind_Panic {A B : Type} (f : A → result B) : (x ← Panic; f x) = Panic.
Proof. reflexivity. Qed.

Lemma foldM_app {A B : Type} (f : B → A → result B) (b : B) (l1 l2 : list A) :
  foldM f b (l1 ++ l2)%list = (b' ← foldM f b l1; foldM f b' l2).
Proof.
  revert b. induction l1 as [|a l1 IH]; intros b; simpl; [done |].
  destruct (f b a); simpl; [apply IH | done..].
Qed.

(** A loop whose steps commute does not depend on the order of the
    iteration. *)
Lemma foldM_permutation {A B : Type} (f : B → A → result B) :
  (∀ b a1 a2, (b' ← f b a1; f b' a2) = (b' ← f b a2; f b' a1)) →
  ∀ l1 l2, l1 ≡ₚ l2 → ∀ b, foldM f b l1 = foldM f b l2.
Proof.
  intros Hcomm l1 l2 Hp.
  induction Hp as [|a l1 l2 _ IH|a1 a2 l|l1 l2 l3 _ IH1 _ IH2]; intros b.
  - done.
  - simpl. destruct (f b a); simpl; [apply IH | done..].
  - simpl. specialize (Hcomm b a2 a1). simpl in Hcomm.
    destruct (f b a1) as [b1| |] eqn:E1, (f b a2) as [b2| |] eqn:E2;
      simpl in *; try done.
    + by rewrite Hcomm.
    + by rewrite <- Hcomm.
    + by rewrite <- Hcomm.
    + by rewrite Hcomm.
    + by rewrite Hcomm.
  - by rewrite IH1, IH2.
Qed.

(** *** The first loop *)

Lemma seeParam_eq (σ : gmap loc OASSchema) (u : gset string)
    (p : OASParameter) :
  seeParam (σ, u) p
  = match param_Schema p with
    | None => Ok (σ, {[param_Name p]} ∪ u)
    | Some l =>
        match σ !! l with
        | None => Panic
        | Some s => Ok (<[l := ensured s]> σ, {[param_Name p]} ∪ u)
        end
    end.
Proof.
  unfold seeParam. destruct (param_Schema p) as [l|]; [| done].
  rewrite ensureDisplayAttrs_eq. by destruct (σ !! l).
Qed.

Lemma seeParam_comm (st : gmap loc OASSchema * gset string)
    (p q : OASParameter) :
  (st' ← seeParam st p; seeParam st' q) = (st' ← seeParam st q; seeParam st' p).
Proof.
  destruct st as [σ u].
  assert (Hu : ({[param_Name q]} ∪ ({[param_Name p]} ∪ u) : gset string)
               = {[param_Name p]} ∪ ({[param_Name q]} ∪ u)) by set_solver.
  rewrite !seeParam_eq.
  destruct (param_Schema p) as [l1|] eqn:Ep, (param_Schema q) as [l2|] eqn:Eq.
  - destruct (decide (l1 = l2)) as [<-|Hne].
    + destruct (σ !! l1) as [s|] eqn:E; [| done].
      rewrite !bind_Ok, !seeParam_eq, Ep, Eq, lookup_insert_eq. by rewrite Hu.
    + destruct (σ !! l1) as [s1|] eqn:E1, (σ !! l2) as [s2|] eqn:E2;
        rewrite ?bind_Ok, ?bind_Panic, ?seeParam_eq, ?Ep, ?Eq,
          ?lookup_insert_ne, ?E1, ?E2 by done;
        try done.
      by rewrite Hu, insert_insert_ne.
  - destruct (σ !! l1) as [s1|] eqn:E1;
      rewrite ?bind_Ok, ?bind_Panic, ?seeParam_eq, ?Ep, ?Eq, ?E1;
      [by rewrite Hu | done].
  - destruct (σ !! l2) as [s2|] eqn:E2;
      rewrite ?bind_Ok, ?bind_Panic, ?seeParam_eq, ?Ep, ?Eq, ?E2;
      [by rewrite Hu | done].
  - by rewrite !bind_Ok, !seeParam_eq, Ep, Eq, Hu.
Qed.

Lemma seeParam_inv (σ σ' : gmap loc OASSchema) (u u' : gset string)
    (p : OASParameter) :
  seeParam (σ, u) p = Ok (σ', u') →
  evolves σ σ' ∧ u' = {[param_Name p]} ∪ u
  ∧ ∀ l, param_Schema p = Some l → filled σ' l.
Proof.
  rewrite seeParam_eq. destruct (param_Schema p) as [l|].
  - destruct (σ !! l) as [s|] eqn:E; [| done]. intros [= <- <-].
    split_and!; [by apply evolves_insert | done |].
    intros ? [= <-]. exists (ensured s).
    rewrite lookup_insert_eq. eauto using ensured_filled.
  - intros [= <- <-]. split_and!; done.
Qed.

Lemma loop1_facts (ps : list OASParameter) (σ σ1 : gmap loc OASSchema)
    (u u1 : gset string) :
  foldM seeParam (σ, u) ps = Ok (σ1, u1) →
  evolves σ σ1 ∧ u1 = list_to_set (map param_Name ps) ∪ u
  ∧ Forall (λ p, ∀ l, param_Schema p = Some l → filled σ1 l) ps.
Proof.
  revert σ u. induction ps as [|p ps IH]; intros σ u; simpl.
  - intros [= <- <-]. split_and!; [done | set_solver | done].
  - destruct (seeParam (σ, u) p) as [[σ' u']| |] eqn:E; simpl; [| done..].
    intros H. apply seeParam_inv in E as (Hev & -> & Hf).
    apply IH in H as (Hev' & -> & HF). split_and!.
    + by etrans.
    + set_solver.
    + constructor; [| done]. intros l El. eauto using evolves_filled.
Qed.

Lemma loop1_skip (ps : list OASParameter) (σ : gmap loc OASSchema)
    (u : gset string) :
  Forall (λ p, ∀ l, param_Schema p = Some l → filled σ l) ps →
  foldM seeParam (σ, u) ps = Ok (σ, list_to_set (map param_Name ps) ∪ u).
Proof.
  revert u. induction ps as [|p ps IH]; intros u HF; simpl.
  - f_equal. f_equal. set_solver.
  - inversion_clear HF as [|? ? Hp HF'].
    assert (seeParam (σ, u) p = Ok (σ, {[param_Name p]} ∪ u)) as ->.
    { rewrite seeParam_eq. destruct (param_Schema p) as [l|]; [| done].
      destruct (Hp l eq_refl) as (s & Es & Hs).
      by rewrite Es, ensured_id, insert_id. }
    simpl. rewrite IH by done. f_equal. f_equal. set_solver.
Qed.

(** *** The second loop *)

Lemma merges_refl (Q : string → Prop) (st : merge_state) : merges Q st st.
Proof.
  exists []. rewrite app_nil_r. split_and!; try done; [set_solver | constructor].
Qed.

Lemma merges_names (Q : string → Prop) (st st' : merge_state) :
  merges Q st st' → st.2 ⊆ st'.2.
Proof. intros (added & _ & -> & _). set_solver. Qed.

Lemma merges_weaken (Q Q' : string → Prop) (st st' : merge_state) :
  (∀ n, Q n → Q' n) → merges Q st st' → merges Q' st st'.
Proof.
  intros HQ (added & E1 & E2 & Hev & Hnd & HF).
  exists added. split_and!; try done.
  eapply Forall_impl; [exact HF |]. intros p (? & ? & ? & ?).
  split_and!; auto.
Qed.

Lemma appended_ok_later (Q : string → Prop) (u : gset string)
    (σ σ' : gmap loc OASSchema) (p : OASParameter) :
  evolves σ σ' → appended_ok Q u σ p → appended_ok Q u σ' p.
Proof.
  intros Hev (HQ & Hu & Hin & l & s & El & Es & Hs & Hd).
  split_and!; try done. exists l, s. split_and!; try done.
  eauto using evolves_keeps_filled.
Qed.

Lemma merges_trans (Q : string → Prop) (st1 st2 st3 : merge_state) :
  merges Q st1 st2 → merges Q st2 st3 → merges Q st1 st3.
Proof.
  intros (a1 & E1 & U1 & Hev1 & Hnd1 & HF1) (a2 & E2 & U2 & Hev2 & Hnd2 & HF2).
  exists (a1 ++ a2)%list. split_and!.
  - by rewrite E2, E1, app_assoc.
  - rewrite U2, U1, map_app, list_to_set_app_L. set_solver.
  - by etrans.
  - rewrite map_app. apply NoDup_app. split_and!; try done.
    intros n Hn1 Hn2. apply list_elem_of_fmap in Hn2 as (p & -> & Hp).
    rewrite Forall_forall in HF2. destruct (HF2 p Hp) as (_ & Hnot & _).
    apply Hnot. rewrite U1. apply elem_of_union_l, elem_of_list_to_set, Hn1.
  - apply Forall_app. split.
    + eapply Forall_impl; [exact HF1 |]. intros p.
      by apply appended_ok_later.
    + eapply Forall_impl; [exact HF2 |]. intros p (? & Hnot & ? & ?).
      split_and!; try done. rewrite U1 in Hnot. set_solver.
Qed.

Lemma addProperty_eq (params : list OASParameter) (σ : gmap loc OASSchema)
    (u : gset string) (n : string) (sch : option loc) :
  addProperty (params, σ, u) (n, sch)
  = if decide (n ∈ u) then Ok (params, σ, u)
    else match sch with
         | None =>
             Ok ((params ++ [mkOASParameter n
                               (schema_Description (ensured zeroSchema))
                               "post" (Some (fresh (dom σ))) false false])%list,
                 <[fresh (dom σ) := ensured zeroSchema]> σ, {[n]} ∪ u)
         | Some l =>
             match σ !! l with
             | None => Panic
             | Some s =>
                 Ok ((params ++ [mkOASParameter n
                                   (schema_Description (ensured s))
                                   "post" (Some l) false false])%list,
                     <[l := ensured s]> σ, {[n]} ∪ u)
             end
         end.
Proof.
  unfold addProperty. case_decide; [done |]. destruct sch as [l|].
  - rewrite bind_Ok, ensureDisplayAttrs_eq. by destruct (σ !! l).
  - rewrite bind_Ok, ensureDisplayAttrs_eq, lookup_insert_eq, bind_Ok.
    by rewrite insert_insert_eq.
Qed.

Lemma addProperty_merges (Q : string → Prop) (st st' : merge_state)
    (n : string) (sch : option loc) :
  Q n → addProperty st (n, sch) = Ok st' → merges Q st st' ∧ n ∈ st'.2.
Proof.
  destruct st as [[params σ] u]. intros HQ. rewrite addProperty_eq.
  case_decide as Hn.
  { intros [= <-]. split; [apply merges_refl | done]. }
  assert (Hone : ∀ l s p σ',
    p = mkOASParameter n (schema_Description s) "post" (Some l) false false →
    σ' !! l = Some s → is_Some (schema_DisplayAttrs s) → evolves σ σ' →
    merges Q (params, σ, u) ((params ++ [p])%list, σ', {[n]} ∪ u)
    ∧ n ∈ ({[n]} ∪ u : gset string)).
  { intros l s p σ' -> El Hs Hev. split; [| set_solver].
    eexists [_]. simpl. split_and!; try done.
    - set_solver.
    - repeat constructor. set_solver.
    - repeat constructor; simpl; try done. exists l, s. by split_and!. }
  destruct sch as [l|].
  - destruct (σ !! l) as [s|] eqn:E; [| done]. intros [= <-].
    apply (Hone l (ensured s)); try done.
    + by rewrite lookup_insert_eq.
    + apply ensured_filled.
    + by apply evolves_insert.
  - intros [= <-]. apply (Hone (fresh (dom σ)) (ensured zeroSchema)); try done.
    + by rewrite lookup_insert_eq.
    + apply evolves_alloc.
Qed.

Lemma props_merges (Q : string → Prop) (props : list (string * option loc))
    (st st' : merge_state) :
  (∀ n sch, (n, sch) ∈ props → Q n) →
  foldM addProperty st props = Ok st' →
  merges Q st st' ∧ ∀ n sch, (n, sch) ∈ props → n ∈ st'.2.
Proof.
  revert st. induction props as [|[n sch] props IH]; intros st HQ; simpl.
  - intros [= <-]. split; [apply merges_refl |]. intros ? ? H.
    by apply elem_of_nil in H.
  - destruct (addProperty st (n, sch)) as [st1| |] eqn:E; simpl; [| done..].
    intros H.
    apply (addProperty_merges Q) in E as [Hm1 Hn1];
      [| apply (HQ n sch); left].
    apply IH in H as [Hm2 Hn2]; [| intros ? ? ?; eapply HQ; by right].
    split; [by eapply merges_trans |].
    intros n' sch' [[= -> ->]|Hin]%elem_of_cons; [| eauto].
    by apply (merges_names _ _ _ Hm2).
Qed.

Lemma props_skip (props : list (string * option loc)) (st : merge_state) :
  (∀ n sch, (n, sch) ∈ props → n ∈ st.2) →
  foldM addProperty st props = Ok st.
Proof.
  destruct st as [[params σ] u].
  induction props as [|[n sch] props IH]; intros Hin; simpl; [done |].
  rewrite addProperty_eq, decide_True by (eapply Hin; left).
  simpl. apply IH. intros ? ? ?. eapply Hin. by right.
Qed.

Lemma covered_later (σ σ' : gmap loc OASSchema) (u u' : gset string)
    (entry : string * option OASMediaTypeObject) :
  evolves σ σ' → u ⊆ u' → covered σ u entry → covered σ' u' entry.
Proof.
  intros Hev Hu (m & Em & Hm). exists m. split; [done |].
  intros l El. destruct (Hm l El) as (s & Es & Hs).
  destruct (evolves_lookup_Properties _ _ _ _ Hev Es) as (s' & Es' & Ep).
  exists s'. rewrite Ep. split; [done |]. intros; apply Hu; eauto.
Qed.

Lemma addMediaType_merges (st st' : merge_state)
    (entry : string * option OASMediaTypeObject) :
  addMediaType st entry = Ok st' →
  merges (λ n, ∃ m l s sch, entry.2 = Some m ∧ media_Schema m = Some l
                            ∧ st.1.2 !! l = Some s
                            ∧ (n, sch) ∈ schema_Properties s) st st'
  ∧ covered st'.1.2 st'.2 entry.
Proof.
  unfold addMediaType. destruct (entry.2) as [m|] eqn:Em; [| done].
  destruct (media_Schema m) as [l|] eqn:El.
  - destruct (st.1.2 !! l) as [s|] eqn:Es; [| done]. intros H.
    apply (props_merges (λ n, ∃ m0 l0 s0 sch, Some m = Some m0
             ∧ media_Schema m0 = Some l0 ∧ st.1.2 !! l0 = Some s0
             ∧ (n, sch) ∈ schema_Properties s0)) in H as [Hm Hin].
    + split; [done |]. exists m. split; [done |]. intros l' El'.
      rewrite El in El'. injection El' as <-.
      destruct Hm as (added & _ & _ & Hev & _).
      destruct (evolves_lookup_Properties _ _ _ _ Hev Es) as (s' & Es' & Ep).
      exists s'. rewrite Ep. eauto.
    + intros n sch Hn. exists m, l, s, sch. by split_and!.
  - intros [= <-]. split; [apply merges_refl |].
    exists m. split; [done |]. intros l' El'. congruence.
Qed.

Lemma content_merges (σ0 : gmap loc OASSchema)
    (full content : list (string * option OASMediaTypeObject))
    (st st' : merge_state) :
  (∀ e, e ∈ content → e ∈ full) → evolves σ0 st.1.2 →
  foldM addMediaType st content = Ok st' →
  merges (content_property σ0 full) st st'
  ∧ Forall (covered st'.1.2 st'.2) content.
Proof.
  revert st. induction content as [|entry content IH]; intros st Hsub Hev; simpl.
  - intros [= <-]. split; [apply merges_refl | constructor].
  - destruct (addMediaType st entry) as [st1| |] eqn:E; simpl; [| done..].
    intros H. apply addMediaType_merges in E as [Hm1 Hc1].
    assert (Hev1 : evolves σ0 st1.1.2).
    { destruct Hm1 as (? & _ & _ & ? & _). by etrans. }
    apply IH in H as [Hm2 HF2]; [| intros; apply Hsub; by right | done].
    split.
    + eapply merges_trans; [| exact Hm2].
      eapply merges_weaken; [| exact Hm1].
      intros n (m & l & s & sch & Em & El & Es & Hn).
      destruct (evolves_back _ _ _ _ Hev Es) as [(s0 & Es0 & Ep)|Ep].
      * exists entry.1, m, l, s0, sch. split_and!; try done.
        -- apply Hsub. destruct entry as [k o]. simpl in *. subst. by left.
        -- by rewrite Ep.
      * rewrite Ep in Hn. by apply elem_of_nil in Hn.
    + constructor; [| done].
      destruct Hm2 as (? & _ & ? & ? & _).
      eapply covered_later; [done | | exact Hc1]. set_solver.
Qed.

Lemma content_skip (content : list (string * option OASMediaTypeObject))
    (st : merge_state) :
  Forall (covered st.1.2 st.2) content →
  foldM addMediaType st content = Ok st.
Proof.
  induction content as [|entry content IH]; intros HF; simpl; [done |].
  inversion_clear HF as [|? ? (m & Em & Hm) HF'].
  assert (addMediaType st entry = Ok st) as ->; [| by apply IH].
  unfold addMediaType. rewrite Em.
  destruct (media_Schema m) as [lm|]; [| done].
  destruct (Hm lm eq_refl) as (s & -> & Hs). by apply props_skip.
Qed.

(** ** appendPostParamsToTopLevel *)

Lemma appendPost_eq (pathItem : OASPathItem) (σ : gmap loc OASSchema) :
  appendPostParamsToTopLevel pathItem σ
  = match post_content pathItem with
    | None => Ok (pathItem, σ)
    | Some content =>
        '(σ1, unique) ← foldM seeParam (σ, ∅) (item_Parameters pathItem);
        '(params, σ2, _) ←
          foldM addMediaType (item_Parameters pathItem, σ1, unique) content;
        Ok (set_Parameters pathItem params, σ2)
    end.
Proof.
  unfold appendPostParamsToTopLevel, post_content.
  destruct (item_Post pathItem) as [post|]; [| done]. simpl.
  destruct (op_RequestBody post) as [body|]; [| done]. simpl.
  by destruct (body_Content body).
Qed.

Lemma extraction_facts (pathItem item1 : OASPathItem)
    (σ σ1 : gmap loc OASSchema)
    (content : list (string * option OASMediaTypeObject)) :
  post_content pathItem = Some content →
  appendPostParamsToTopLevel pathItem σ = Ok (item1, σ1) →
  ∃ added,
    item1 = set_Parameters pathItem (item_Parameters pathItem ++ added)%list
    ∧ evolves σ σ1
    ∧ NoDup (map param_Name added)
    ∧ Forall (appended_ok (content_property σ content)
                (list_to_set (map param_Name (item_Parameters pathItem))) σ1)
        added
    ∧ Forall (λ p, ∀ l, param_Schema p = Some l → filled σ1 l)
        (item_Parameters pathItem)
    ∧ Forall (covered σ1
                (list_to_set
                   (map param_Name (item_Parameters pathItem ++ added)%list)))
        content.
Proof.
  intros Ec. rewrite appendPost_eq, Ec.
  destruct (foldM seeParam (σ, ∅) (item_Parameters pathItem))
    as [[σa u]| |] eqn:E1; [| done..].
  rewrite bind_Ok.
  destruct (foldM addMediaType (item_Parameters pathItem, σa, u) content)
    as [[[params σb] u']| |] eqn:E2; [| done..].
  rewrite bind_Ok. intros [= <- <-].
  apply loop1_facts in E1 as (Hev1 & -> & HF1).
  apply (content_merges σ content) in E2 as [(added & Ea & Eu & Hev2 & Hnd & HF2) Hcov];
    [| done | done].
  simpl in *. subst params. exists added. split_and!.
  - done.
  - by etrans.
  - done.
  - eapply Forall_impl; [exact HF2 |]. intros p (? & Hnot & ? & ?).
    split_and!; try done. set_solver.
  - eapply Forall_impl; [exact HF1 |]. intros p Hp l El.
    eauto using evolves_filled.
  - assert (u' = list_to_set
                   (map param_Name (item_Parameters pathItem ++ added)%list))
      as <-; [| done].
    rewrite Eu, map_app, list_to_set_app_L. set_solver.
Qed.

Lemma extraction_fixed (pathItem : OASPathItem) (σ : gmap loc OASSchema)
    (content : list (string * option OASMediaTypeObject)) :
  post_content pathItem = Some content →
  Forall (λ p, ∀ l, param_Schema p = Some l → filled σ l)
    (item_Parameters pathItem) →
  Forall (covered σ (list_to_set (map param_Name (item_Parameters pathItem))))
    content →
  appendPostParamsToTopLevel pathItem σ = Ok (pathItem, σ).
Proof.
  intros Ec HF Hcov. rewrite appendPost_eq, Ec, loop1_skip by done.
  rewrite bind_Ok, content_skip.
  - rewrite bind_Ok. by destruct pathItem.
  - simpl. eapply Forall_impl; [exact Hcov |]. intros e.
    apply covered_later; [done | set_solver].
Qed.

Lemma heap_reordered_refl (σ : gmap loc OASSchema) : heap_reordered σ σ.
Proof. intros l. destruct (σ !! l); [| done]. by split_and!. Qed.

Lemma item_reordered_refl (i : OASPathItem) : item_reordered i i.
Proof. split; [done |]. by destruct (post_content i). Qed.

Lemma filled_reordered (σ σ' : gmap loc OASSchema) (l : loc) :
  heap_reordered σ σ' → filled σ l → filled σ' l.
Proof.
  intros Hr (s & Es & Hs). specialize (Hr l). rewrite Es in Hr.
  destruct (σ' !! l) as [s'|] eqn:Es'; [| done].
  destruct Hr as (_ & _ & Ea & _). exists s'. by rewrite Ea.
Qed.

Lemma covered_reordered (σ σ' : gmap loc OASSchema) (u : gset string)
    (entry : string * option OASMediaTypeObject) :
  heap_reordered σ σ' → covered σ u entry → covered σ' u entry.
Proof.
  intros Hr (m & Em & Hm). exists m. split; [done |]. intros l El.
  destruct (Hm l El) as (s & Es & Hs). specialize (Hr l). rewrite Es in Hr.
  destruct (σ' !! l) as [s'|] eqn:Es'; [| done].
  destruct Hr as (_ & _ & _ & Hp).
  exists s'. split; [done |]. intros n sch Hn. apply (Hs n sch).
  by rewrite Hp.
Qed.

(** C4: an extraction that is run on the outcome of an extraction leaves
    the path item, with its parameters, and every schema object as they
    are: nothing is appended and nothing is written the second time; and
    so it is when the second run visits the content map and the
    properties in another order. *)
Theorem extraction_idempotent (pathItem item1 : OASPathItem)
    (σ σ1 : gmap loc OASSchema) :
  appendPostParamsToTopLevel pathItem σ = Ok (item1, σ1) →
  appendPostParamsToTopLevel item1 σ1 = Ok (item1, σ1)
  ∧ ∀ item2 σ2, item_reordered item1 item2 → heap_reordered σ1 σ2 →
      appendPostParamsToTopLevel item2 σ2 = Ok (item2, σ2).
Proof.
  intros H.
  assert (Hany : ∀ item2 σ2, item_reordered item1 item2 →
                   heap_reordered σ1 σ2 →
                   appendPostParamsToTopLevel item2 σ2 = Ok (item2, σ2)).
  { intros item2 σ2 [Eps Hc] Hσ.
    destruct (post_content pathItem) as [content|] eqn:Ec.
    - destruct (extraction_facts _ _ _ _ _ Ec H)
        as (added & -> & _ & _ & HF2 & HF1 & Hcov).
      change (post_content (set_Parameters pathItem
                (item_Parameters pathItem ++ added)%list))
        with (post_content pathItem) in Hc.
      rewrite Ec in Hc.
      destruct (post_content item2) as [content'|] eqn:Ec'; [| done].
      apply (extraction_fixed _ _ content'); [done | |].
      + rewrite Eps. simpl. apply Forall_app. split.
        * eapply Forall_impl; [exact HF1 |]. intros p Hp l El.
          eauto using filled_reordered.
        * eapply Forall_impl; [exact HF2 |].
          intros p (_ & _ & _ & l & s & El & Es & Hs & _) l' El'.
          rewrite El in El'. injection El' as <-.
          apply (filled_reordered σ1); [done |]. by exists s.
      + rewrite Eps, <- Hc. simpl.
        eapply Forall_impl; [exact Hcov |]. intros e.
        by apply covered_reordered.
    - rewrite appendPost_eq, Ec in H. injection H as <- <-.
      rewrite Ec in Hc. rewrite appendPost_eq.
      by destruct (post_content item2). }
  split; [| done].
  apply Hany; [apply item_reordered_refl | apply heap_reordered_refl].
Qed.

(** C5: the parameters after the extraction are the top-level ones, as
    they were, followed by appended ones; an appended parameter is named
    after a property of the POST body, has a name that no top-level
    parameter has, and the location [post]; no two appended parameters
    share a name, so a name at the top level still names the same
    parameters; every body property is then the name of a parameter; the
    schema object of a top-level parameter is kept, but for absent display
    attributes that are set. *)
Theorem top_level_precedence (pathItem item1 : OASPathItem)
    (σ σ1 : gmap loc OASSchema) :
  appendPostParamsToTopLevel pathItem σ = Ok (item1, σ1) →
  ∃ added,
    item_Parameters item1 = (item_Parameters pathItem ++ added)%list
    ∧ Forall (λ p, (param_Name p ∉ map param_Name (item_Parameters pathItem))
                   ∧ param_In p = "post"
                   ∧ body_property pathItem σ (param_Name p)) added
    ∧ NoDup (map param_Name added)
    ∧ (∀ X, X ∈ map param_Name (item_Parameters pathItem) →
         List.filter (λ p, String.eqb (param_Name p) X) (item_Parameters item1)
         = List.filter (λ p, String.eqb (param_Name p) X)
             (item_Parameters pathItem))
    ∧ (∀ n, body_property pathItem σ n →
         n ∈ map param_Name (item_Parameters item1))
    ∧ (∀ p l s, p ∈ item_Parameters pathItem → param_Schema p = Some l →
         σ !! l = Some s →
         σ1 !! l = Some s
         ∨ (schema_DisplayAttrs s = None ∧ σ1 !! l = Some (set_DisplayAttrs s))).
Proof.
  intros H. destruct (post_content pathItem) as [content|] eqn:Ec.
  - destruct (extraction_facts _ _ _ _ _ Ec H)
      as (added & -> & Hev & Hnd & HF2 & HF1 & Hcov).
    assert (Hnames : Forall (λ p, param_Name p
                                  ∉ map param_Name (item_Parameters pathItem))
                       added).
    { eapply Forall_impl; [exact HF2 |]. intros p (_ & Hnot & _).
      by rewrite elem_of_list_to_set in Hnot. }
    exists added. simpl. split_and!.
    + done.
    + rewrite Forall_forall in HF2, Hnames. apply Forall_forall. intros p Hp.
      destruct (HF2 p Hp) as (HQ & _ & Hin & _). split_and!; eauto.
      by exists content.
    + done.
    + intros X HX. rewrite List.filter_app.
      assert (List.filter (λ p, String.eqb (param_Name p) X) added = [])
        as ->; [| by rewrite app_nil_r].
      clear -Hnames HX. induction Hnames as [|p added Hp _ IH]; [done |].
      simpl. destruct (String.eqb_spec (param_Name p) X); [congruence | done].
    + intros n (content' & Ec' & key & m & l & s & sch & Hk & El & Es & Hn).
      rewrite Ec in Ec'. injection Ec' as <-.
      rewrite Forall_forall in Hcov.
      destruct (Hcov _ Hk) as (m' & [= <-] & Hm).
      destruct (Hm l El) as (s1 & Es1 & Hs1).
      destruct (evolves_lookup_Properties _ _ _ _ Hev Es) as (s' & Es' & Ep).
      rewrite Es1 in Es'. injection Es' as <-.
      rewrite <- Ep in Hn. apply Hs1 in Hn.
      by rewrite elem_of_list_to_set in Hn.
    + intros p l s Hp El Es.
      destruct (evolves_lookup _ _ _ _ Hev Es) as (s' & Es' & [->| ->]);
        [by left |].
      unfold ensured in Es'.
      destruct (schema_DisplayAttrs s) eqn:Ea; [by left | by right].
  - rewrite appendPost_eq, Ec in H. injection H as <- <-.
    exists []. rewrite app_nil_r. split_and!; try done.
    + constructor.
    + intros n (content & Ec' & _). congruence.
    + by left.
Qed.

Lemma appendPost_operations (pathItem item1 : OASPathItem)
    (σ σ1 : gmap loc OASSchema) :
  appendPostParamsToTopLevel pathItem σ = Ok (item1, σ1) →
  item_Get item1 = item_Get pathItem ∧ item_Post item1 = item_Post pathItem
  ∧ item_Delete item1 = item_Delete pathItem.
Proof.
  intros H. destruct (post_content pathItem) as [content|] eqn:Ec.
  - by destruct (extraction_facts _ _ _ _ _ Ec H) as (added & -> & _).
  - rewrite appendPost_eq, Ec in H. by injection H as <- <-.
Qed.

(** ** The validation loop *)

Lemma StrListContains_spec (haystack : list string) (needle : string) :
  StrListContains haystack needle = true ↔ needle ∈ haystack.
Proof.
  unfold StrListContains. rewrite existsb_exists. split.
  - intros (x & Hx & ->%String.eqb_eq). by apply list_elem_of_In.
  - intros H. exists needle. split; [by apply list_elem_of_In |].
    apply String.eqb_refl.
Qed.

Lemma validateParams_Ok (X : Env) (path : string) (σ : gmap loc OASSchema)
    (ps : list OASParameter) :
  Forall (supported σ) ps ↔ validateParams X path σ ps = (Ok (), []).
Proof.
  induction ps as [|p ps IH]; simpl; [by split |]. split.
  - intros [(l & s & El & Es & Ht) HF']%Forall_cons. rewrite El, Es.
    apply StrListContains_spec in Ht as ->. by apply IH.
  - destruct (param_Schema p) as [l|] eqn:El; [| done].
    destruct (σ !! l) as [s|] eqn:Es; [| done].
    destruct (StrListContains supportedParamTypes (schema_Type s)) eqn:Ht;
      [| done].
    intros H. constructor; [| by apply IH].
    exists l, s. by rewrite <- StrListContains_spec.
Qed.

Lemma validateParams_Ok_iff (X : Env) (path : string)
    (σ : gmap loc OASSchema) (ps : list OASParameter) :
  (validateParams X path σ ps).1 = Ok () ↔ Forall (supported σ) ps.
Proof.
  rewrite validateParams_Ok. split; [| by intros ->].
  induction ps as [|p ps IH]; simpl; [done |].
  destruct (param_Schema p) as [l|]; [| done].
  destruct (σ !! l) as [s|]; [| done].
  by destruct (StrListContains supportedParamTypes (schema_Type s)).
Qed.


Lemma validateParams_Err (X : Env) (path : string) (σ : gmap loc OASSchema)
    (ps : list OASParameter) (e : error) (msgs : list string) :
  validateParams X path σ ps = (Err e, msgs) →
  e = ErrUnsupported
  ∧ ∃ pre p post l s,
      ps = (pre ++ p :: post)%list ∧ Forall (supported σ) pre
      ∧ param_Schema p = Some l ∧ σ !! l = Some s
      ∧ (schema_Type s ∉ supportedParamTypes)
      ∧ msgs = [unsupportedMessage X path (schema_Type s) (param_Name p)].
Proof.
  induction ps as [|p ps IH]; simpl; [done |].
  destruct (param_Schema p) as [l|] eqn:El; [| done].
  destruct (σ !! l) as [s|] eqn:Es; [| done].
  destruct (StrListContains supportedParamTypes (schema_Type s)) eqn:Ht.
  - intros H. destruct (IH H) as (-> & pre & q & post & l' & s' & -> & HF & ?).
    split; [done |]. exists (p :: pre), q, post, l', s'.
    split_and!; try tauto. constructor; [| done].
    exists l, s. by rewrite <- StrListContains_spec.
  - intros [= <- <-]. split; [done |]. exists [], p, ps, l, s.
    split_and!; try done. rewrite <- StrListContains_spec. congruence.
Qed.

(** When every parameter has a schema, the loop raises the sentinel
    exactly when some parameter has a type tag that is not supported. *)
Lemma validateParams_unsupported_iff (X : Env) (path : string)
    (σ : gmap loc OASSchema) (ps : list OASParameter) :
  Forall (has_schema σ) ps →
  ((validateParams X path σ ps).1 = Err ErrUnsupported
   ↔ Exists (unsupported σ) ps).
Proof.
  intros Hs. split.
  - destruct (validateParams X path σ ps) as [r msgs] eqn:E. simpl.
    intros ->. apply validateParams_Err in E
      as (_ & pre & p & post & l & s & -> & _ & El & Es & Ht & _).
    apply Exists_app. right. left. by exists l, s.
  - induction Hs as [|p ps (l & s & El & Es) _ IH]; intros Hex.
    + by apply Exists_nil in Hex.
    + simpl. rewrite El, Es.
      destruct (StrListContains supportedParamTypes (schema_Type s)) eqn:Ht;
        [| done].
      apply IH. apply Exists_cons in Hex as [(l' & s' & El' & Es' & Hn)|]; [| done].
      rewrite El in El'. injection El' as <-. rewrite Es in Es'.
      injection Es' as <-. by apply StrListContains_spec in Ht.
Qed.

(** C9: the capability flags of a rendering context say which of the GET,
    POST and DELETE operations the endpoint descriptor has; with GET only,
    they are read and neither write nor delete. *)
Theorem capability_flags (X : Env) (path parentDir : string) (w w' : World)
    (ctx : templateFriendly) :
  toTemplateFriendly X path parentDir w = (Ok ctx, w') →
  (SupportsRead ctx = true ↔ is_Some (item_Get (pathItem w)))
  ∧ (SupportsWrite ctx = true ↔ is_Some (item_Post (pathItem w)))
  ∧ (SupportsDelete ctx = true ↔ is_Some (item_Delete (pathItem w)))
  ∧ (is_Some (item_Get (pathItem w)) → item_Post (pathItem w) = None →
     item_Delete (pathItem w) = None →
     SupportsRead ctx = true ∧ SupportsWrite ctx = false
     ∧ SupportsDelete ctx = false).
Proof.
  intros H.
  apply toTemplateFriendly_Ok in H as (item1 & σ1 & dirName & Ha & _ & _ & -> & _).
  apply appendPost_operations in Ha as (-> & -> & ->). simpl.
  rewrite !bool_decide_eq_true. split_and!; try done.
  intros Hg -> ->. split_and!; try done.
  all: apply bool_decide_eq_false; by intros [? ?].
Qed.

(** ** sort.Slice by name *)

Lemma ltb_lt (a b : string) : String.ltb a b = true ↔ String_as_OT.lt a b.
Proof.
  rewrite <- String_as_OT.cmp_lt. unfold String.ltb, String_as_OT.cmp.
  by destruct (String.compare a b).
Qed.

Lemma ltb_total (a b : string) :
  a ≠ b → String.ltb a b = false → String.ltb b a = true.
Proof.
  unfold String.ltb. rewrite (String.compare_antisym a b).
  destruct (String.compare b a) eqn:E; simpl; try done.
  apply String.compare_eq_iff in E. congruence.
Qed.

Lemma name_lt_irrefl (p : OASParameter) : ¬ name_lt p p.
Proof. intros H. by apply String_as_OT.lt_not_eq in H. Qed.

Lemma name_lt_trans (p q r : OASParameter) :
  name_lt p q → name_lt q r → name_lt p r.
Proof. apply String_as_OT.lt_trans. Qed.

Lemma insertBy_perm {A : Type} (less : A → A → bool) (x : A) (l : list A) :
  insertBy less x l ≡ₚ x :: l.
Proof.
  induction l as [|y l IH]; simpl; [done |].
  destruct (less x y); [done |]. rewrite IH. apply perm_swap.
Qed.

Lemma foldl_insertBy_perm {A : Type} (less : A → A → bool) (l acc : list A) :
  foldl (λ sorted x, insertBy less x sorted) acc l ≡ₚ (acc ++ l)%list.
Proof.
  revert acc. induction l as [|x l IH]; intros acc; simpl.
  - by rewrite app_nil_r.
  - rewrite IH, insertBy_perm. simpl. apply Permutation_middle.
Qed.

Lemma sort_Slice_perm {A : Type} (less : A → A → bool) (l : list A) :
  sort_Slice less l ≡ₚ l.
Proof. unfold sort_Slice. by rewrite foldl_insertBy_perm. Qed.

Lemma insertBy_sorted (x : OASParameter) (l : list OASParameter) :
  StronglySorted name_lt l →
  Forall (λ y, param_Name y ≠ param_Name x) l →
  StronglySorted name_lt (insertBy lessByName x l).
Proof.
  induction 1 as [|y l Hl IH Hy]; intros Hne; simpl.
  - repeat constructor.
  - apply Forall_cons in Hne as [Hyx Hne].
    destruct (lessByName x y) eqn:E.
    + apply ltb_lt in E. constructor; [by constructor |].
      constructor; [done |]. eapply Forall_impl; [exact Hy |].
      intros z Hz. by eapply name_lt_trans.
    + constructor; [by apply IH |].
      rewrite insertBy_perm. constructor; [| done].
      apply ltb_lt, ltb_total; [done | exact E].
Qed.

Lemma foldl_insertBy_sorted (l acc : list OASParameter) :
  StronglySorted name_lt acc → NoDup (map param_Name (acc ++ l)%list) →
  StronglySorted name_lt (foldl (λ sorted x, insertBy lessByName x sorted) acc l).
Proof.
  revert acc. induction l as [|x l IH]; intros acc Hs Hnd; simpl; [done |].
  apply IH.
  - apply insertBy_sorted; [done |].
    rewrite map_app in Hnd. apply NoDup_app in Hnd as (_ & Hd & _).
    apply Forall_forall. intros y Hy E. apply (Hd (param_Name y)).
    + by apply list_elem_of_fmap_2.
    + rewrite E. simpl. left.
  - rewrite insertBy_perm. simpl.
    by rewrite <- Permutation_middle in Hnd.
Qed.

Lemma sort_Slice_sorted (l : list OASParameter) :
  NoDup (map param_Name l) → StronglySorted name_lt (sort_Slice lessByName l).
Proof. intros H. apply foldl_insertBy_sorted; [constructor | done]. Qed.

Lemma sorted_perm_eq (l1 l2 : list OASParameter) :
  StronglySorted name_lt l1 → StronglySorted name_lt l2 → l1 ≡ₚ l2 → l1 = l2.
Proof.
  intros H1. revert l2. induction H1 as [|a l1 Hl1 IH Ha]; intros l2 H2 Hp.
  - by apply Permutation_nil in Hp.
  - destruct H2 as [|b l2 Hl2 Hb].
    { symmetry in Hp. by apply Permutation_nil in Hp. }
    assert (a = b) as <-.
    { assert (Hab : a ∈ b :: l2) by (rewrite <- Hp; left).
      assert (Hba : b ∈ a :: l1) by (rewrite Hp; left).
      apply elem_of_cons in Hab as [|Hab]; [done |].
      apply elem_of_cons in Hba as [|Hba]; [done |].
      rewrite Forall_forall in Ha, Hb.
      destruct (name_lt_irrefl a). eapply name_lt_trans; eauto. }
    f_equal. apply IH; [done |]. by apply Permutation_cons_inv in Hp.
Qed.

Lemma sort_Slice_perm_eq (l1 l2 : list OASParameter) :
  NoDup (map param_Name l1) → l1 ≡ₚ l2 →
  sort_Slice lessByName l1 = sort_Slice lessByName l2.
Proof.
  intros Hnd Hp. apply sorted_perm_eq.
  - by apply sort_Slice_sorted.
  - apply sort_Slice_sorted. by rewrite <- Hp.
  - by rewrite !sort_Slice_perm.
Qed.

(** ** The second loop does not read the parameters it appends to *)

Lemma addProperty_prepend (ps0 : list OASParameter) (st : merge_state)
    (prop : string * option loc) :
  addProperty (prepend ps0 st) prop
  = (st' ← addProperty st prop; Ok (prepend ps0 st')).
Proof.
  destruct st as [[params σ] u], prop as [n sch]. unfold prepend. simpl.
  rewrite !addProperty_eq. case_decide; [done |].
  destruct sch as [l|]; [destruct (σ !! l) |]; simpl;
    by rewrite ?app_assoc.
Qed.

Lemma foldM_prepend {A : Type} (f : merge_state → A → result merge_state)
    (ps0 : list OASParameter) :
  (∀ st a, f (prepend ps0 st) a = (st' ← f st a; Ok (prepend ps0 st'))) →
  ∀ l st, foldM f (prepend ps0 st) l = (st' ← foldM f st l; Ok (prepend ps0 st')).
Proof.
  intros Hf l. induction l as [|a l IH]; intros st; simpl; [done |].
  rewrite Hf. destruct (f st a) as [st1| |]; simpl; [apply IH | done..].
Qed.

Lemma addMediaType_prepend (ps0 : list OASParameter) (st : merge_state)
    (entry : string * option OASMediaTypeObject) :
  addMediaType (prepend ps0 st) entry
  = (st' ← addMediaType st entry; Ok (prepend ps0 st')).
Proof.
  unfold addMediaType. destruct (entry.2) as [m|]; [| done].
  destruct (media_Schema m) as [l|]; [| done].
  change ((prepend ps0 st).1.2) with (st.1.2).
  destruct (st.1.2 !! l) as [s|]; [| done].
  apply foldM_prepend. intros. apply addProperty_prepend.
Qed.

Lemma content_prepend (ps0 : list OASParameter) (σ : gmap loc OASSchema)
    (u : gset string) (content : list (string * option OASMediaTypeObject)) :
  foldM addMediaType (ps0, σ, u) content
  = (st' ← foldM addMediaType ([], σ, u) content; Ok (prepend ps0 st')).
Proof.
  rewrite <- (foldM_prepend addMediaType ps0 (addMediaType_prepend ps0)).
  unfold prepend. simpl. by rewrite app_nil_r.
Qed.

(** ** The extraction returns on well-formed inputs *)

Lemma refs_ok_later (σ σ' : gmap loc OASSchema) (o : option loc) :
  evolves σ σ' → refs_ok σ o → refs_ok σ' o.
Proof.
  intros Hev Ho l El. destruct (Ho l El) as [s Es].
  destruct (evolves_lookup _ _ _ _ Hev Es) as (s' & Es' & _). eauto.
Qed.

Lemma media_ok_later (σ σ' : gmap loc OASSchema)
    (entry : string * option OASMediaTypeObject) :
  evolves σ σ' → media_ok σ entry → media_ok σ' entry.
Proof.
  intros Hev (m & Em & Hm). exists m. split; [done |]. intros l El.
  destruct (Hm l El) as (s & Es & HF).
  destruct (evolves_lookup_Properties _ _ _ _ Hev Es) as (s' & Es' & Ep).
  exists s'. rewrite Ep. split; [done |].
  eapply Forall_impl; [exact HF |]. intros prop. by apply refs_ok_later.
Qed.

Lemma loop1_total (ps : list OASParameter) (σ : gmap loc OASSchema)
    (u : gset string) :
  Forall (λ p, refs_ok σ (param_Schema p)) ps →
  ∃ σ1 u1, foldM seeParam (σ, u) ps = Ok (σ1, u1).
Proof.
  revert σ u. induction ps as [|p ps IH]; intros σ u HF; simpl; [eauto |].
  apply Forall_cons in HF as [Hp HF].
  assert (∃ σ', seeParam (σ, u) p = Ok (σ', {[param_Name p]} ∪ u))
    as [σ' E].
  { rewrite seeParam_eq. destruct (param_Schema p) as [l|]; [| eauto].
    destruct (Hp l eq_refl) as [s ->]. eauto. }
  rewrite E, bind_Ok. apply IH.
  apply seeParam_inv in E as (Hev & _).
  eapply Forall_impl; [exact HF |]. intros q. by apply refs_ok_later.
Qed.

Lemma props_total (props : list (string * option loc)) (st : merge_state) :
  Forall (λ prop, refs_ok st.1.2 prop.2) props →
  ∃ st', foldM addProperty st props = Ok st'.
Proof.
  revert st. induction props as [|[n sch] props IH]; intros st HF; simpl;
    [eauto |].
  apply Forall_cons in HF as [Hp HF].
  assert (∃ st1, addProperty st (n, sch) = Ok st1) as [st1 E].
  { destruct st as [[params σ] u]. rewrite addProperty_eq.
    case_decide; [eauto |]. destruct sch as [l|]; [| eauto].
    destruct (Hp l eq_refl) as [s Es]. simpl in Es. rewrite Es. eauto. }
  rewrite E, bind_Ok. apply IH.
  apply (addProperty_merges (λ _, True)) in E as [(? & _ & _ & Hev & _) _];
    [| done].
  eapply Forall_impl; [exact HF |]. intros prop. by apply refs_ok_later.
Qed.

Lemma content_total (content : list (string * option OASMediaTypeObject))
    (st : merge_state) :
  Forall (media_ok st.1.2) content →
  ∃ st', foldM addMediaType st content = Ok st'.
Proof.
  revert st. induction content as [|entry content IH]; intros st HF; simpl;
    [eauto |].
  apply Forall_cons in HF as [(m & Em & Hm) HF].
  assert (∃ st1, addMediaType st entry = Ok st1) as [st1 E].
  { unfold addMediaType. rewrite Em.
    destruct (media_Schema m) as [l|]; [| eauto].
    destruct (Hm l eq_refl) as (s & -> & Hs). by apply props_total. }
  rewrite E, bind_Ok. apply IH.
  apply addMediaType_merges in E as [(? & _ & _ & Hev & _) _].
  eapply Forall_impl; [exact HF |]. intros e. by apply media_ok_later.
Qed.

(** On a well-formed input the extraction neither panics nor fails. *)
Lemma extraction_total (pathItem : OASPathItem) (σ : gmap loc OASSchema) :
  well_formed pathItem σ →
  ∃ item1 σ1, appendPostParamsToTopLevel pathItem σ = Ok (item1, σ1).
Proof.
  intros [Hps Hc]. rewrite appendPost_eq.
  destruct (post_content pathItem) as [content|]; [| eauto].
  destruct (loop1_total _ _ ∅ Hps) as (σa & u & E1). rewrite E1, bind_Ok.
  apply loop1_facts in E1 as (Hev & _).
  destruct (content_total content (item_Parameters pathItem, σa, u))
    as ([[params σb] u'] & E2).
  { simpl. eapply Forall_impl; [exact Hc |]. intros e.
    by apply media_ok_later. }
  rewrite E2, bind_Ok. eauto.
Qed.

Lemma LastIndex_from_bounds (s : string) (sep : ascii) (i found : Z) :
  (-1 ≤ found < i)%Z → (-1 ≤ LastIndex_from i s sep found < i + len s)%Z.
Proof.
  revert i found. induction s as [|c s IH]; intros i found Hf; simpl.
  - unfold len. simpl. lia.
  - specialize (IH (i + 1)%Z (if Ascii.eqb c sep then i else found)).
    unfold len in *. simpl String.length. destruct (Ascii.eqb c sep); lia.
Qed.

(** The slice that gives [DirName] is always in range. *)
Lemma DirName_total (parentDir : string) :
  is_Some (slice_from parentDir (LastIndex parentDir "/" + 1)).
Proof.
  unfold slice_from, LastIndex.
  pose proof (LastIndex_from_bounds parentDir "/" 0 (-1)) as Hb.
  rewrite decide_True by lia. eauto.
Qed.

(** On a well-formed input whose parameters are all supported after the
    extraction, [toTemplateFriendly] returns a rendering context. *)
Lemma toTemplateFriendly_total (X : Env) (path parentDir : string)
    (w : World) (item1 : OASPathItem) (σ1 : gmap loc OASSchema) :
  appendPostParamsToTopLevel (pathItem w) (heap w) = Ok (item1, σ1) →
  Forall (supported σ1) (item_Parameters item1) →
  ∃ ctx w', toTemplateFriendly X path parentDir w = (Ok ctx, w').
Proof.
  intros Ha Hv. unfold toTemplateFriendly. rewrite Ha.
  apply (validateParams_Ok X path) in Hv. rewrite Hv.
  destruct (DirName_total parentDir) as [dirName ->]. eauto.
Qed.

(** ** The order of the top-level parameters *)

Lemma extraction_permuted (pathItem item1 : OASPathItem)
    (ps' : list OASParameter) (σ σ1 : gmap loc OASSchema) :
  item_Parameters pathItem ≡ₚ ps' →
  appendPostParamsToTopLevel pathItem σ = Ok (item1, σ1) →
  ∃ params1',
    appendPostParamsToTopLevel (set_Parameters pathItem ps') σ
    = Ok (set_Parameters pathItem params1', σ1)
    ∧ item_Parameters item1 ≡ₚ params1'
    ∧ item1 = set_Parameters pathItem (item_Parameters item1).
Proof.
  intros Hp. rewrite !appendPost_eq.
  change (post_content (set_Parameters pathItem ps'))
    with (post_content pathItem).
  destruct (post_content pathItem) as [content|].
  - simpl item_Parameters.
    rewrite <- (foldM_permutation seeParam seeParam_comm _ _ Hp).
    destruct (foldM seeParam (σ, ∅) (item_Parameters pathItem))
      as [[σa u]| |]; [| done..].
    rewrite !bind_Ok, (content_prepend ps'),
      (content_prepend (item_Parameters pathItem)).
    destruct (foldM addMediaType ([], σa, u) content)
      as [[[added σb] u']| |]; [| done..].
    rewrite !bind_Ok. unfold prepend. simpl. intros [= <- <-].
    exists (ps' ++ added)%list. split_and!; try done.
    simpl. by rewrite Hp.
  - intros [= <- <-]. exists ps'. split_and!; try done. by destruct pathItem.
Qed.

Lemma extraction_NoDup (pathItem item1 : OASPathItem)
    (σ σ1 : gmap loc OASSchema) :
  NoDup (map param_Name (item_Parameters pathItem)) →
  appendPostParamsToTopLevel pathItem σ = Ok (item1, σ1) →
  NoDup (map param_Name (item_Parameters item1)).
Proof.
  intros Hnd H. destruct (post_content pathItem) as [content|] eqn:Ec.
  - destruct (extraction_facts _ _ _ _ _ Ec H)
      as (added & -> & _ & Hnd2 & HF2 & _).
    simpl. rewrite map_app. apply NoDup_app. split_and!; try done.
    intros n Hn1 (p & -> & Hp)%list_elem_of_fmap.
    rewrite Forall_forall in HF2. destruct (HF2 p Hp) as (_ & Hnot & _).
    by rewrite elem_of_list_to_set in Hnot.
  - rewrite appendPost_eq, Ec in H. by injection H as <- <-.
Qed.

(** The names after the extraction are the top-level names and the
    names of the properties of the POST body. *)
Lemma extraction_names (pathItem item1 : OASPathItem)
    (σ σ1 : gmap loc OASSchema) (n : string) :
  appendPostParamsToTopLevel pathItem σ = Ok (item1, σ1) →
  n ∈ map param_Name (item_Parameters item1)
  ↔ n ∈ map param_Name (item_Parameters pathItem) ∨ body_property pathItem σ n.
Proof.
  intros H. destruct (post_content pathItem) as [content|] eqn:Ec.
  - destruct (extraction_facts _ _ _ _ _ Ec H)
      as (added & -> & Hev & _ & HF2 & _ & Hcov).
    simpl. rewrite map_app, elem_of_app. split.
    + intros [Hn|(p & -> & Hp)%list_elem_of_fmap]; [by left |]. right.
      rewrite Forall_forall in HF2. destruct (HF2 p Hp) as (HQ & _).
      by exists content.
    + intros [Hn|(content' & Ec' & key & m & l & s & sch & Hk & El & Es & Hn)];
        [by left |].
      rewrite Ec in Ec'. injection Ec' as <-.
      rewrite Forall_forall in Hcov.
      destruct (Hcov _ Hk) as (m' & [= <-] & Hm).
      destruct (Hm l El) as (s1 & Es1 & Hs1).
      destruct (evolves_lookup_Properties _ _ _ _ Hev Es) as (s' & Es' & Ep).
      rewrite Es1 in Es'. injection Es' as <-.
      rewrite <- Ep in Hn. apply Hs1 in Hn.
      rewrite elem_of_list_to_set, map_app, elem_of_app in Hn. done.
  - rewrite appendPost_eq, Ec in H. injection H as <- <-. split; [by left |].
    intros [Hn|(content & Ec' & _)]; [done | congruence].
Qed.

(** C6: the parameters in the rendering context are the parameters after
    the extraction in strictly ascending lexicographic order of their
    names, and these names are the top-level names and the names of the
    body properties; with the top-level parameters, which come from a map
    keyed by name, given in any other order, the rendering context (and
    the state left behind) is the same. *)
Theorem rendering_order_deterministic (X : Env) (path parentDir : string)
    (w w1 : World) (ps' : list OASParameter) (ctx : templateFriendly) :
  item_Parameters (pathItem w) ≡ₚ ps' →
  NoDup (map param_Name (item_Parameters (pathItem w))) →
  toTemplateFriendly X path parentDir w = (Ok ctx, w1) →
  toTemplateFriendly X path parentDir
    (set_item w (set_Parameters (pathItem w) ps') (heap w)) = (Ok ctx, w1)
  ∧ StronglySorted name_lt (Parameters ctx)
  ∧ (∃ item1 σ1,
       appendPostParamsToTopLevel (pathItem w) (heap w) = Ok (item1, σ1)
       ∧ Parameters ctx ≡ₚ item_Parameters item1)
  ∧ (∀ n, n ∈ map param_Name (Parameters ctx)
          ↔ n ∈ map param_Name (item_Parameters (pathItem w))
            ∨ body_property (pathItem w) (heap w) n).
Proof.
  intros Hp Hnd H.
  apply toTemplateFriendly_Ok in H
    as (item1 & σ1 & dirName & Ha & Hv & Hs & -> & ->).
  pose proof (extraction_NoDup _ _ _ _ Hnd Ha) as Hnd1.
  destruct (extraction_permuted _ _ _ _ _ Hp Ha) as (params1' & Ha' & Hp1 & E1).
  split_and!.
  - unfold toTemplateFriendly. simpl pathItem. simpl heap. rewrite Ha'.
    apply validateParams_Ok_iff in Hv. rewrite Hp1 in Hv.
    apply (validateParams_Ok X path) in Hv. simpl item_Parameters.
    rewrite Hv, Hs. rewrite <- (sort_Slice_perm_eq _ _ Hnd1 Hp1).
    rewrite E1. by destruct w.
  - simpl. by apply sort_Slice_sorted.
  - exists item1, σ1. split; [done |]. simpl. apply sort_Slice_perm.
  - intros n. simpl. rewrite <- (extraction_names _ _ _ _ n Ha).
    by rewrite sort_Slice_perm.
Qed.

(** Two lists of parameters in strictly ascending order of names that
    have the same names list them in the same sequence: the sequence of
    names in the rendering context does not depend on the order in which
    either map was visited. *)
Lemma sorted_names_eq (l1 l2 : list OASParameter) :
  StronglySorted name_lt l1 → StronglySorted name_lt l2 →
  (∀ n, n ∈ map param_Name l1 ↔ n ∈ map param_Name l2) →
  map param_Name l1 = map param_Name l2.
Proof.
  intros H1. revert l2.
  induction H1 as [|a l1 Hl1 IH Ha]; intros l2 H2 Hn.
  - destruct l2 as [|b l2]; [done |].
    pose proof (proj2 (Hn (param_Name b))) as Hb. simpl in Hb.
    specialize (Hb ltac:(left)). by apply elem_of_nil in Hb.
  - destruct H2 as [|b l2 Hl2 Hb].
    { pose proof (proj1 (Hn (param_Name a))) as Hfw. simpl in Hfw.
      specialize (Hfw ltac:(left)). by apply elem_of_nil in Hfw. }
    rewrite Forall_forall in Ha, Hb.
    assert (Hirr : ∀ x y, param_Name x = param_Name y → name_lt x y → False).
    { intros x y E Hlt. apply String_as_OT.lt_not_eq in Hlt. by apply Hlt. }
    assert (Hasym : ∀ x y, name_lt x y → name_lt y x → False).
    { intros x y Hxy Hyx. apply (name_lt_irrefl x).
      by apply (name_lt_trans x y x). }
    assert (Hab : param_Name a = param_Name b).
    { pose proof (proj1 (Hn (param_Name a))) as Hfw.
      pose proof (proj2 (Hn (param_Name b))) as Hbw. simpl in Hfw, Hbw.
      destruct (decide (param_Name a = param_Name b)) as [|Hne]; [done |].
      exfalso.
      specialize (Hfw ltac:(left)). specialize (Hbw ltac:(left)).
      apply elem_of_cons in Hfw as [|(y & Ey & Hy)%list_elem_of_fmap]; [done |].
      apply elem_of_cons in Hbw as [|(x & Ex & Hx)%list_elem_of_fmap];
        [congruence |].
      apply (Hasym a b).
      - unfold name_lt. rewrite Ex. by apply Ha.
      - unfold name_lt. rewrite Ey. by apply Hb. }
    simpl. rewrite Hab. f_equal. apply IH; [done |].
    intros n. specialize (Hn n). simpl in Hn. rewrite Hab in Hn.
    rewrite !elem_of_cons in Hn. split.
    + intros Hin. destruct (proj1 Hn (or_intror Hin)) as [->|]; [| done].
      exfalso. apply list_elem_of_fmap in Hin as (x & Ex & Hx).
      apply (Hirr a x); [congruence | by apply Ha].
    + intros Hin. destruct (proj2 Hn (or_intror Hin)) as [->|]; [| done].
      exfalso. apply list_elem_of_fmap in Hin as (x & Ex & Hx).
      apply (Hirr b x); [congruence | by apply Hb].
Qed.

(** ** generateFile *)



(** C10: what [generateFile] returns is settled by the slice of the path,
    the creation of the directory, the creation of the file and
    [parseTemplate]; whatever the flush and the close answer, it returns
    the same, and their errors are appended to the log, the flush first. *)
Theorem flush_close_diagnostic_only (X : Env) (os : OSOutcome)
    (pathToFile : string) (fileType : FileType) (vaultPath : string)
    (w : World) :
  (generateFile X os pathToFile fileType vaultPath w).1
  = match slice_to pathToFile (LastIndex pathToFile "/") with
    | None => Panic
    | Some parentDir =>
        match mkdirAllErr os, createErr os with
        | Some e, _ => Err (ErrOther e)
        | None, Some e => Err (ErrOther e)
        | None, None =>
            (parseTemplate X fileType parentDir vaultPath
               (writeFile pathToFile EmptyString (addDir parentDir w))).1.1
        end
    end
  ∧ (∀ flush close,
       (generateFile X
          (mkOSOutcome (mkdirAllErr os) (createErr os) flush close)
          pathToFile fileType vaultPath w).1
       = (generateFile X os pathToFile fileType vaultPath w).1)
  ∧ (∀ parentDir,
       slice_to pathToFile (LastIndex pathToFile "/") = Some parentDir →
       mkdirAllErr os = None → createErr os = None →
       logged (generateFile X os pathToFile fileType vaultPath w).2
       = (logged (parseTemplate X fileType parentDir vaultPath
                    (writeFile pathToFile EmptyString (addDir parentDir w))).1.2
          ++ option_list (flushErr os) ++ option_list (closeErr os))%list).
Proof.
  assert (Hret : ∀ os',
    (generateFile X os' pathToFile fileType vaultPath w).1
    = match slice_to pathToFile (LastIndex pathToFile "/") with
      | None => Panic
      | Some parentDir =>
          match mkdirAllErr os', createErr os' with
          | Some e, _ => Err (ErrOther e)
          | None, Some e => Err (ErrOther e)
          | None, None =>
              (parseTemplate X fileType parentDir vaultPath
                 (writeFile pathToFile EmptyString (addDir parentDir w))).1.1
          end
      end).
  { intros os'. unfold generateFile.
    destruct (slice_to pathToFile (LastIndex pathToFile "/")) as [parentDir|];
      [| done].
    destruct (mkdirAllErr os'); [done |]. destruct (createErr os'); [done |].
    by destruct (parseTemplate X fileType parentDir vaultPath _) as [[r w1] out]. }
  split_and!.
  - apply Hret.
  - intros flush close. by rewrite !Hret.
  - intros parentDir Hs Hm Hc. unfold generateFile. rewrite Hs, Hm, Hc.
    destruct (parseTemplate X fileType parentDir vaultPath _) as [[r w1] out].
    destruct (flushErr os), (closeErr os); simpl;
      by rewrite <- ?List.app_assoc, ?List.app_nil_r.
Qed.

(** When every parameter has a schema after the extraction,
    [toTemplateFriendly] raises [ErrUnsupported] exactly when one of them
    has a type tag outside the supported ones, and logs the endpoint
    path, the type and the name of the first such parameter. *)
Lemma unsupported_iff_with_schemas (X : Env) (path parentDir : string)
    (w : World) (item1 : OASPathItem) (σ1 : gmap loc OASSchema) :
  appendPostParamsToTopLevel (pathItem w) (heap w) = Ok (item1, σ1) →
  Forall (has_schema σ1) (item_Parameters item1) →
  ((toTemplateFriendly X path parentDir w).1 = Err ErrUnsupported
   ↔ Exists (unsupported σ1) (item_Parameters item1))
  ∧ ((toTemplateFriendly X path parentDir w).1 = Err ErrUnsupported →
     ∃ p l s, p ∈ item_Parameters item1 ∧ param_Schema p = Some l
              ∧ σ1 !! l = Some s ∧ (schema_Type s ∉ supportedParamTypes)
              ∧ logged (toTemplateFriendly X path parentDir w).2
                = (logged w
                   ++ [unsupportedMessage X path (schema_Type s) (param_Name p)])%list).
Proof.
  intros Ha Hs.
  pose proof (validateParams_unsupported_iff X path σ1 _ Hs) as Hiff.
  unfold toTemplateFriendly. rewrite Ha.
  destruct (validateParams X path σ1 (item_Parameters item1))
    as [[[]|e|] msgs] eqn:Hv; simpl in *.
  - destruct (slice_from parentDir (LastIndex parentDir "/" + 1));
      simpl; split; try done; by rewrite <- Hiff.
  - apply validateParams_Err in Hv
      as (-> & pre & p & post & l & s & Ep & _ & El & Es & Ht & ->).
    split; [by rewrite <- Hiff |]. intros _. exists p, l, s.
    split_and!; try done. rewrite Ep. apply elem_of_app. right. left.
  - split; [by rewrite <- Hiff | done].
Qed.

(** ** The examples *)

(** The extraction and the rendering context of [roleItem]. *)
Lemma roleItem_extraction :
  appendPostParamsToTopLevel roleItem exampleHeap = Ok (roleMerged, roleHeap).
Proof. vm_compute. reflexivity. Qed.

Lemma roleItem_context :
  (toTemplateFriendly exampleEnv rolePath roleDir (worldOf roleItem)).1
  = Ok roleContext.
Proof. vm_compute. reflexivity. Qed.

(** The extraction of [roleItem], run again on its own outcome. *)
Lemma extraction_idempotent_witness :
  appendPostParamsToTopLevel roleItem exampleHeap = Ok (roleMerged, roleHeap)
  ∧ appendPostParamsToTopLevel roleMerged roleHeap = Ok (roleMerged, roleHeap).
Proof.
  assert (Hr : appendPostParamsToTopLevel roleItem exampleHeap
               = Ok (roleMerged, roleHeap)) by (vm_compute; reflexivity).
  split; [done |].
  exact (proj1 (extraction_idempotent roleItem roleMerged exampleHeap roleHeap
                  Hr)).
Defined.

(** [roleItem]: [name] is at the top level and in the body, and stays as
    it was; [transformations] and [allowed] are appended. *)
Lemma top_level_precedence_witness :
  appendPostParamsToTopLevel roleItem exampleHeap = Ok (roleMerged, roleHeap)
  ∧ ∃ added,
      item_Parameters roleMerged = (item_Parameters roleItem ++ added)%list
      ∧ Forall (λ p, (param_Name p ∉ map param_Name (item_Parameters roleItem))
                     ∧ param_In p = "post"
                     ∧ body_property roleItem exampleHeap (param_Name p)) added
      ∧ NoDup (map param_Name added)
      ∧ (∀ X, X ∈ map param_Name (item_Parameters roleItem) →
           List.filter (λ p, String.eqb (param_Name p) X)
             (item_Parameters roleMerged)
           = List.filter (λ p, String.eqb (param_Name p) X)
               (item_Parameters roleItem))
      ∧ (∀ n, body_property roleItem exampleHeap n →
           n ∈ map param_Name (item_Parameters roleMerged))
      ∧ (∀ p l s, p ∈ item_Parameters roleItem → param_Schema p = Some l →
           exampleHeap !! l = Some s →
           roleHeap !! l = Some s
           ∨ (schema_DisplayAttrs s = None
              ∧ roleHeap !! l = Some (set_DisplayAttrs s))).
Proof.
  split; [vm_compute; reflexivity |].
  apply (top_level_precedence roleItem roleMerged exampleHeap roleHeap).
  vm_compute. reflexivity.
Defined.

(** [roleItem] with [zone] before [name] and with [name] before [zone]. *)
Lemma rendering_order_deterministic_witness :
  (item_Parameters (pathItem (worldOf roleItem)) ≡ₚ [nameParam; zoneParam])
  ∧ NoDup (map param_Name (item_Parameters (pathItem (worldOf roleItem))))
  ∧ toTemplateFriendly exampleEnv rolePath roleDir (worldOf roleItem)
    = (Ok roleContext, roleAfter)
  ∧ toTemplateFriendly exampleEnv rolePath roleDir roleItemSwapped
    = (Ok roleContext, roleAfter)
  ∧ StronglySorted name_lt (Parameters roleContext).
Proof.
  assert (Hp : item_Parameters (pathItem (worldOf roleItem))
               ≡ₚ [nameParam; zoneParam]) by apply perm_swap.
  assert (Hnd : NoDup (map param_Name
                         (item_Parameters (pathItem (worldOf roleItem))))).
  { by_evaluation. }
  assert (Hr : toTemplateFriendly exampleEnv rolePath roleDir (worldOf roleItem)
               = (Ok roleContext, roleAfter)) by (vm_compute; reflexivity).
  destruct (rendering_order_deterministic exampleEnv rolePath roleDir
              (worldOf roleItem) roleAfter [nameParam; zoneParam] roleContext
              Hp Hnd Hr) as (H1 & H2 & _ & _).
  split_and!; done.
Defined.


(** [readOnlyItem] has a GET operation only. *)
Lemma capability_flags_witness :
  toTemplateFriendly exampleEnv readOnlyPath readOnlyDir (worldOf readOnlyItem)
  = (Ok readOnlyContext, worldOf readOnlyItem)
  ∧ SupportsRead readOnlyContext = true
  ∧ SupportsWrite readOnlyContext = false
  ∧ SupportsDelete readOnlyContext = false.
Proof.
  assert (Hr : toTemplateFriendly exampleEnv readOnlyPath readOnlyDir
                 (worldOf readOnlyItem)
               = (Ok readOnlyContext, worldOf readOnlyItem))
    by (vm_compute; reflexivity).
  destruct (capability_flags exampleEnv readOnlyPath readOnlyDir
              (worldOf readOnlyItem) (worldOf readOnlyItem) readOnlyContext Hr)
    as (_ & _ & _ & Honly).
  split; [done |]. apply Honly; [by eexists | reflexivity | reflexivity].
Defined.


(** [roleItem] is generated; the flush and the close fail, are logged, and
    the call still returns without error. *)
Lemma flush_close_diagnostic_only_witness :
  (generateFile exampleEnv osNoFlushNoClose roleFile FileTypeResource rolePath
     (worldOf roleItem)).1 = Ok ()
  ∧ (generateFile exampleEnv osFine roleFile FileTypeResource rolePath
       (worldOf roleItem)).1 = Ok ()
  ∧ logged (generateFile exampleEnv osNoFlushNoClose roleFile FileTypeResource
              rolePath (worldOf roleItem)).2
    = ["short write"; "file already closed"].
Proof.
  destruct (flush_close_diagnostic_only exampleEnv osNoFlushNoClose roleFile
              FileTypeResource rolePath (worldOf roleItem)) as (H1 & H2 & H3).
  split_and!.
  - rewrite H1. vm_compute. reflexivity.
  - specialize (H2 None None). simpl in H2. unfold osFine.
    rewrite H2, H1. vm_compute. reflexivity.
  - rewrite (H3 roleDir); vm_compute; reflexivity.
Defined.


(** The first loop on [bareItem], whose POST body has a content map, so
    that both loops run: the parameter [bare] had no schema and has none
    after the extraction; the assignment to the loop variable does not
    reach the slice. *)
Lemma absent_schema_survives_extraction :
  post_content bareItem = Some []
  ∧ appendPostParamsToTopLevel bareItem exampleHeap = Ok (bareItem, bareHeap)
  ∧ bareParam ∈ item_Parameters bareItem
  ∧ param_Schema bareParam = None
  ∧ ¬ Forall (normalized bareHeap) (item_Parameters bareItem).
Proof.
  split_and!.
  - reflexivity.
  - vm_compute. reflexivity.
  - left.
  - reflexivity.
  - intros [(l & El & _) _]%Forall_cons. discriminate.
Qed.

(** C2, as stated, fails on [readOnlyItem], which has no POST operation:
    the extraction returns at its first guard, and the schema of [name]
    is left without display attributes. *)
Lemma no_post_no_normalization :
  appendPostParamsToTopLevel readOnlyItem exampleHeap
  = Ok (readOnlyItem, exampleHeap)
  ∧ nameParam ∈ item_Parameters readOnlyItem
  ∧ param_Schema nameParam = Some 1%positive
  ∧ exampleHeap !! 1%positive = Some nameSchema
  ∧ schema_DisplayAttrs nameSchema = None
  ∧ ¬ Forall (normalized exampleHeap) (item_Parameters readOnlyItem).
Proof.
  split_and!; try (vm_compute; reflexivity).
  - left.
  - intros [(l & El & s & Es & Hs) _]%Forall_cons.
    injection El as <-. vm_compute in Es. injection Es as <-.
    by destruct Hs.
Qed.

(** C2, as the code has it: behind its guards (a POST operation with a
    request body with a content map) the extraction leaves every appended
    parameter with a schema that has display attributes, and every
    earlier parameter that has a schema with display attributes too;
    without POST operation, request body or content map it changes
    nothing. *)
Theorem extraction_normalization (pathItem item1 : OASPathItem)
    (σ σ1 : gmap loc OASSchema) :
  appendPostParamsToTopLevel pathItem σ = Ok (item1, σ1) →
  match post_content pathItem with
  | None => item1 = pathItem ∧ σ1 = σ
  | Some _ =>
      ∃ added,
        item_Parameters item1 = (item_Parameters pathItem ++ added)%list
        ∧ Forall (normalized σ1) added
        ∧ Forall (λ p, is_Some (param_Schema p) → normalized σ1 p)
            (item_Parameters pathItem)
  end.
Proof.
  intros H. destruct (post_content pathItem) as [content|] eqn:Ec.
  - destruct (extraction_facts _ _ _ _ _ Ec H)
      as (added & -> & _ & _ & HF2 & HF1 & _).
    exists added. split_and!; [done | |].
    + eapply Forall_impl; [exact HF2 |].
      intros p (_ & _ & _ & l & s & El & Es & Hs & _).
      exists l. split; [done |]. by exists s.
    + eapply Forall_impl; [exact HF1 |]. intros p Hp [l El]. exists l. eauto.
  - rewrite appendPost_eq, Ec in H. by injection H as <- <-.
Qed.

(** [roleItem] has a POST body with content. *)
Lemma extraction_normalization_witness :
  appendPostParamsToTopLevel roleItem exampleHeap = Ok (roleMerged, roleHeap)
  ∧ ∃ added,
      item_Parameters roleMerged = (item_Parameters roleItem ++ added)%list
      ∧ Forall (normalized roleHeap) added
      ∧ Forall (λ p, is_Some (param_Schema p) → normalized roleHeap p)
          (item_Parameters roleItem).
Proof.
  split; [vm_compute; reflexivity |].
  apply (extraction_normalization roleItem roleMerged exampleHeap roleHeap).
  vm_compute. reflexivity.
Defined.

(** C3 at [bareItem]: after the extraction the parameter [settings] has
    the type [object], which is not supported, but the validation loop
    first dereferences the absent schema of [bare]: the outcome is a
    panic, not [ErrUnsupported], and nothing is logged. *)
Lemma validator_panics_on_absent_schema :
  appendPostParamsToTopLevel bareItem exampleHeap = Ok (bareItem, bareHeap)
  ∧ Exists (unsupported bareHeap) (item_Parameters bareItem)
  ∧ (toTemplateFriendly exampleEnv "/bare" objectDir (worldOf bareItem)).1
    = Panic
  ∧ logged (toTemplateFriendly exampleEnv "/bare" objectDir
              (worldOf bareItem)).2 = [].
Proof.
  split_and!.
  - vm_compute. reflexivity.
  - right. left. exists 4%positive, (set_DisplayAttrs settingsSchema).
    split_and!; [done | done |].
    by_evaluation.
  - vm_compute. reflexivity.
  - vm_compute. reflexivity.
Qed.

(** * Further properties of the generator *)

(** ** The rendering context of a descriptor that was rendered before *)

Lemma post_content_set_Parameters (item : OASPathItem)
    (ps : list OASParameter) :
  post_content (set_Parameters item ps) = post_content item.
Proof. reflexivity. Qed.

(** An extraction on the sorted outcome of an extraction changes
    nothing. *)
Lemma extraction_fixed_sorted (pathItem item1 : OASPathItem)
    (σ σ1 : gmap loc OASSchema) (ps : list OASParameter) :
  appendPostParamsToTopLevel pathItem σ = Ok (item1, σ1) →
  item_Parameters item1 ≡ₚ ps →
  appendPostParamsToTopLevel (set_Parameters item1 ps) σ1
  = Ok (set_Parameters item1 ps, σ1).
Proof.
  intros H Hp. destruct (post_content pathItem) as [content|] eqn:Ec.
  - destruct (extraction_facts _ _ _ _ _ Ec H)
      as (added & -> & _ & _ & HF2 & HF1 & Hcov).
    simpl in Hp. apply (extraction_fixed _ _ content); [done | |].
    + simpl. rewrite <- Hp. apply Forall_app. split; [done |].
      eapply Forall_impl; [exact HF2 |].
      intros p (_ & _ & _ & l & s & El & Es & Hs & _) l' El'.
      rewrite El in El'. injection El' as <-. by exists s.
    + simpl.
      assert ((list_to_set (map param_Name ps) : gset string)
              = list_to_set
                  (map param_Name (item_Parameters pathItem ++ added)%list))
        as ->; [| done].
      apply set_eq. intros n. rewrite !elem_of_list_to_set.
      by rewrite <- Hp.
  - rewrite appendPost_eq, Ec in H. injection H as <- <-.
    by rewrite appendPost_eq, post_content_set_Parameters, Ec.
Qed.

(** X1: once [toTemplateFriendly] has returned a rendering context for a
    descriptor whose top-level names are distinct, a further call on the
    descriptor it left behind (as [generateDoc] makes after
    [generateCode]) returns the same parameters and capability flags,
    with the prefixes and the directory name of the new call, and
    changes neither the descriptor nor any schema object nor the log. *)
Theorem context_rebuilt_on_reused_descriptor (X : Env)
    (path parentDir path' parentDir' : string) (w w1 : World)
    (ctx : templateFriendly) :
  NoDup (map param_Name (item_Parameters (pathItem w))) →
  toTemplateFriendly X path parentDir w = (Ok ctx, w1) →
  ∃ dirName',
    slice_from parentDir' (LastIndex parentDir' "/" + 1) = Some dirName'
    ∧ toTemplateFriendly X path' parentDir' w1
      = (Ok (mkTemplateFriendly path' dirName'
               (Title (ToLower (funcPrefix path')))
               (ToLower (funcPrefix path'))
               (Parameters ctx) (SupportsRead ctx) (SupportsWrite ctx)
               (SupportsDelete ctx)),
         w1).
Proof.
  intros Hnd H.
  apply toTemplateFriendly_Ok in H
    as (item1 & σ1 & dirName & Ha & Hv & Hs & -> & ->).
  destruct (DirName_total parentDir') as [dirName' Hd]. exists dirName'.
  split; [done |].
  pose proof (extraction_NoDup _ _ _ _ Hnd Ha) as Hnd1.
  pose proof (sort_Slice_perm lessByName (item_Parameters item1)) as Hp.
  symmetry in Hp.
  pose proof (extraction_fixed_sorted _ _ _ _ _ Ha Hp) as Ha2.
  unfold toTemplateFriendly. simpl pathItem. simpl heap. rewrite Ha2.
  apply validateParams_Ok_iff in Hv. rewrite Hp in Hv.
  apply (validateParams_Ok X path') in Hv. simpl item_Parameters.
  rewrite Hv, Hd. rewrite <- (sort_Slice_perm_eq _ _ Hnd1 Hp).
  by destruct w.
Qed.

(** ** What the generator touches *)

Lemma logErrors_world (msgs : list string) (w : World) :
  fold_left (λ w m, logError m w) msgs w
  = mkWorld (pathItem w) (heap w) (logged w ++ msgs)%list (dirs w) (files w).
Proof.
  revert w. induction msgs as [|m msgs IH]; intros w; simpl.
  - rewrite app_nil_r. by destruct w.
  - rewrite IH. simpl. by rewrite <- app_assoc.
Qed.


Lemma toTemplateFriendly_frame (X : Env) (path parentDir : string)
    (w : World) :
  dirs (toTemplateFriendly X path parentDir w).2 = dirs w
  ∧ files (toTemplateFriendly X path parentDir w).2 = files w
  ∧ ∃ more, logged (toTemplateFriendly X path parentDir w).2
            = (logged w ++ more)%list.
Proof.
  unfold toTemplateFriendly.
  destruct (appendPostParamsToTopLevel (pathItem w) (heap w))
    as [[item1 σ1]| |]; [| by split_and!; try done; exists []; rewrite app_nil_r..].
  destruct (validateParams X path σ1 (item_Parameters item1))
    as [[[]|e|] msgs].
  - destruct (slice_from parentDir (LastIndex parentDir "/" + 1)); simpl;
      split_and!; try done; exists []; by rewrite app_nil_r.
  - rewrite logErrors_world. simpl. split_and!; try done. by exists msgs.
  - simpl. split_and!; try done. exists []. by rewrite app_nil_r.
Qed.

Lemma parseTemplate_frame (X : Env) (fileType : FileType)
    (parentDir vaultPath : string) (w : World) :
  dirs (parseTemplate X fileType parentDir vaultPath w).1.2 = dirs w
  ∧ files (parseTemplate X fileType parentDir vaultPath w).1.2 = files w
  ∧ (∃ more, logged (parseTemplate X fileType parentDir vaultPath w).1.2
             = (logged w ++ more)%list)
  ∧ (is_Some (templateParse X fileType) →
     (parseTemplate X fileType parentDir vaultPath w).1.2 = w).
Proof.
  unfold parseTemplate.
  destruct (templateParse X fileType) as [e|].
  { simpl. split_and!; try done. exists []. by rewrite app_nil_r. }
  destruct (toTemplateFriendly_frame X vaultPath parentDir w)
    as (Hd & Hf & Hl).
  destruct (toTemplateFriendly X vaultPath parentDir w) as [[ctx|e|] w'];
    simpl in *.
  - destruct (templateExecute X fileType ctx (heap w')) as [out oe].
    simpl. split_and!; try done; try (by intros [? ?]).
  - split_and!; try done; try (by intros [? ?]).
  - split_and!; try done; try (by intros [? ?]).
Qed.

(** What [generateFile] leaves alone. *)
Lemma generateFile_frame_facts (X : Env) (os : OSOutcome) (pathToFile : string)
    (fileType : FileType) (vaultPath : string) (w : World) :
  (∀ q, q ≠ pathToFile →
     files (generateFile X os pathToFile fileType vaultPath w).2 !! q
     = files w !! q)
  ∧ (∀ d, d ∈ dirs (generateFile X os pathToFile fileType vaultPath w).2
          ↔ d ∈ dirs w
            ∨ (mkdirAllErr os = None
               ∧ slice_to pathToFile (LastIndex pathToFile "/") = Some d))
  ∧ (∃ more, logged (generateFile X os pathToFile fileType vaultPath w).2
             = (logged w ++ more)%list)
  ∧ (is_Some (mkdirAllErr os) ∨ is_Some (createErr os)
     ∨ is_Some (templateParse X fileType) →
     pathItem (generateFile X os pathToFile fileType vaultPath w).2
     = pathItem w
     ∧ heap (generateFile X os pathToFile fileType vaultPath w).2 = heap w).
Proof.
  unfold generateFile.
  destruct (slice_to pathToFile (LastIndex pathToFile "/")) as [parentDir|].
  2: { simpl. split_and!; try done.
       - intros d. split; [by left | by intros [?|[_ ?]]].
       - exists []. by rewrite app_nil_r. }
  destruct (mkdirAllErr os) as [e|].
  { simpl. split_and!; try done.
    - intros d. split; [by left | by intros [?|[? _]]].
    - exists []. by rewrite app_nil_r. }
  destruct (createErr os) as [e|].
  { simpl. split_and!; try done.
    - intros d. rewrite elem_of_union, elem_of_singleton. split.
      + intros [->|?]; [by right | by left].
      + intros [?|[_ [= ->]]]; [by right | by left].
    - exists []. by rewrite app_nil_r. }
  pose proof (parseTemplate_frame X fileType parentDir vaultPath
                (writeFile pathToFile EmptyString (addDir parentDir w)))
    as (Hd & Hf & (more & Hl) & Hp).
  destruct (parseTemplate X fileType parentDir vaultPath
              (writeFile pathToFile EmptyString (addDir parentDir w)))
    as [[r w1] out].
  simpl in Hd, Hf, Hl, Hp.
  assert (Hfs : ∀ w2,
    w2 = match closeErr os with
         | Some e => logError e
                       match flushErr os with
                       | Some e0 => logError e0 w1
                       | None => writeFile pathToFile out w1
                       end
         | None => match flushErr os with
                   | Some e0 => logError e0 w1
                   | None => writeFile pathToFile out w1
                   end
         end →
    dirs w2 = dirs w1 ∧ pathItem w2 = pathItem w1 ∧ heap w2 = heap w1
    ∧ (∀ q, q ≠ pathToFile → files w2 !! q = files w1 !! q)
    ∧ ∃ more2, logged w2 = (logged w1 ++ more2)%list).
  { intros w2 ->. destruct (closeErr os), (flushErr os); simpl;
      split_and!; try done;
      try (intros q Hq; by rewrite lookup_insert_ne);
      try (eexists; by rewrite <- ?List.app_assoc);
      exists []; by rewrite app_nil_r. }
  destruct (Hfs _ eq_refl) as (Hd2 & Hi2 & Hh2 & Hf2 & more2 & Hl2).
  simpl. split_and!.
  - intros q Hq. rewrite Hf2, Hf by done. simpl. by rewrite lookup_insert_ne.
  - intros d. rewrite Hd2, Hd. simpl.
    rewrite elem_of_union, elem_of_singleton. split.
    + intros [->|?]; [by right | by left].
    + intros [?|[_ [= ->]]]; [by right | by left].
  - exists (more ++ more2)%list. rewrite Hl2, Hl. simpl.
    by rewrite List.app_assoc.
  - intros [[? ?]|[[? ?]|Hparse]]; [done | done |].
    rewrite Hi2, Hh2, (Hp Hparse). done.
Qed.


(** ** Parent directories and directory names *)

Lemma length_app (a b : string) :
  String.length (a +:+ b) = (String.length a + String.length b)%nat.
Proof.
  induction a as [|c a IH]; [done |]. rewrite append_cons. simpl. by rewrite IH.
Qed.

Lemma len_app (a b : string) : len (a +:+ b) = (len a + len b)%Z.
Proof. unfold len. rewrite length_app. lia. Qed.

Lemma LastIndex_from_absent (s : string) (sep : ascii) (i found : Z) :
  occurs sep s = false → LastIndex_from i s sep found = found.
Proof.
  revert i found. induction s as [|c s IH]; intros i found; simpl; [done |].
  intros [Hc Hs]%orb_false_iff. rewrite Hc. by apply IH.
Qed.

Lemma LastIndex_from_app (a b : string) (sep : ascii) (i found : Z) :
  LastIndex_from i (a +:+ b) sep found
  = LastIndex_from (i + len a) b sep (LastIndex_from i a sep found).
Proof.
  revert i found. induction a as [|c a IH]; intros i found.
  - rewrite append_nil_l. unfold len. simpl. by rewrite Z.add_0_r.
  - rewrite append_cons. simpl LastIndex_from. rewrite IH. f_equal.
    unfold len. simpl String.length. lia.
Qed.

Lemma LastIndex_last_sep (a b : string) (sep : ascii) :
  occurs sep b = false → LastIndex (a +:+ String sep b) sep = len a.
Proof.
  intros Hb. unfold LastIndex. rewrite LastIndex_from_app. simpl.
  rewrite Ascii.eqb_refl. by rewrite LastIndex_from_absent.
Qed.

Lemma LastIndex_present (s : string) (sep : ascii) :
  occurs sep s = true → (0 ≤ LastIndex s sep < len s)%Z.
Proof.
  intros Hs. unfold LastIndex.
  assert (H : ∀ i found, (-1 ≤ found < i)%Z →
            (i ≤ LastIndex_from i s sep found < i + len s)%Z);
    [| apply (H 0%Z (-1)%Z); lia].
  induction s as [|c s IH]; [done |]. intros i found Hf. simpl in *.
  assert (Hlen : len (String c s) = (1 + len s)%Z)
    by (unfold len; simpl String.length; lia).
  destruct (Ascii.eqb c sep) eqn:Hc.
  - pose proof (LastIndex_from_bounds s sep (i + 1) i) as Hb.
    destruct (occurs sep s) eqn:Ho.
    + assert (Hx : (-1 ≤ i < i + 1)%Z) by lia.
      specialize (IH eq_refl (i + 1)%Z i Hx). clear Hb. lia.
    + rewrite LastIndex_from_absent by done. unfold len in *. lia.
  - simpl in Hs. assert (Hx : (-1 ≤ found < i + 1)%Z) by lia.
    specialize (IH Hs (i + 1)%Z found Hx). lia.
Qed.

Lemma substring_prefix (a b : string) :
  substring 0 (String.length a) (a +:+ b) = a.
Proof.
  induction a as [|c a IH]; [by destruct b |].
  rewrite append_cons. simpl. by rewrite IH.
Qed.

Lemma substring_all (s : string) : substring 0 (String.length s) s = s.
Proof. induction s as [|c s IH]; simpl; [done | by rewrite IH]. Qed.

Lemma substring_suffix (a b : string) :
  substring (String.length a) (String.length b) (a +:+ b) = b.
Proof.
  induction a as [|c a IH]; [apply substring_all |].
  rewrite append_cons. simpl. apply IH.
Qed.

(** The parent directory and the last segment of a path with a
    separator. *)
Lemma slice_to_parent (a b : string) :
  occurs "/" b = false →
  slice_to (a +:+ String "/" b) (LastIndex (a +:+ String "/" b) "/") = Some a.
Proof.
  intros Hb. rewrite LastIndex_last_sep by done. unfold slice_to.
  pose proof (len_app a (String "/" b)) as Hl.
  assert (0 ≤ len (String "/" b))%Z by (unfold len; lia).
  rewrite decide_True by (unfold len in *; lia).
  unfold len. by rewrite Nat2Z.id, substring_prefix.
Qed.

Lemma slice_from_segment (a b : string) :
  occurs "/" b = false →
  slice_from (a +:+ String "/" b) (LastIndex (a +:+ String "/" b) "/" + 1)
  = Some b.
Proof.
  intros Hb. rewrite LastIndex_last_sep by done. unfold slice_from.
  assert (Hl : len (a +:+ String "/" b) = (len a + 1 + len b)%Z).
  { rewrite len_app. unfold len. simpl String.length. lia. }
  assert (0 ≤ len b)%Z by (unfold len; lia).
  assert (0 ≤ len a)%Z by (unfold len; lia).
  rewrite decide_True by lia. f_equal.
  replace (Z.to_nat (len a + 1)) with (String.length (a +:+ "/"))
    by (rewrite length_app; unfold len; simpl; lia).
  replace (String.length (a +:+ String "/" b) - String.length (a +:+ "/"))%nat
    with (String.length b)
    by (rewrite !length_app; simpl; lia).
  replace (a +:+ String "/" b) with ((a +:+ "/") +:+ b)
    by (by rewrite append_assoc).
  apply substring_suffix.
Qed.

Lemma slice_from_whole (s : string) :
  occurs "/" s = false → slice_from s (LastIndex s "/" + 1) = Some s.
Proof.
  intros Hs. unfold LastIndex. rewrite LastIndex_from_absent by done.
  unfold slice_from. simpl.
  assert (0 ≤ len s)%Z by (unfold len; lia).
  rewrite decide_True by lia. f_equal.
  rewrite Nat.sub_0_r. apply substring_all.
Qed.

(** X3: the directory name of a rendering context is the last segment of
    the parent directory it was built for (the whole of it when it has no
    separator). *)
Theorem DirName_is_last_segment (X : Env) (path parentDir : string)
    (w w' : World) (ctx : templateFriendly) :
  toTemplateFriendly X path parentDir w = (Ok ctx, w') →
  is_last_segment parentDir (DirName ctx).
Proof.
  intros H.
  apply toTemplateFriendly_Ok in H as (item1 & σ1 & dirName & _ & _ & Hs & -> & _).
  simpl. pose proof (last_segment_Split parentDir) as Hseg.
  revert Hseg. generalize (List.last (Split parentDir "/") EmptyString).
  intros seg [Hocc [E|[pre E]]]; subst parentDir.
  - rewrite slice_from_whole in Hs by done.
    injection Hs as <-. split; [done | by left].
  - change (pre +:+ "/" +:+ seg) with (pre +:+ String "/" seg) in Hs.
    rewrite slice_from_segment in Hs by done.
    injection Hs as <-. split; [done |]. right. by exists pre.
Qed.

(** ** The output paths *)

Lemma lastByte_app (a b : string) (c : ascii) :
  lastByte b = Some c → lastByte (a +:+ b) = Some c.
Proof.
  intros Hb. induction a as [|x a IH]; [done |].
  rewrite append_cons. simpl. by rewrite IH.
Qed.

Lemma docPath_split (X : Env) (fileType : FileType) (path : string) :
  docPath X fileType path
  = docDir X fileType +:+ String "/" (spec_docName path +:+ ".md").
Proof.
  unfold docPath, docDir. rewrite !stripCurlyBraces_app.
  rewrite replaceSlashesWithDashes_spec. by rewrite !append_assoc.
Qed.

Lemma docName_md_flat (path : string) :
  occurs "/" (spec_docName path +:+ ".md") = false.
Proof.
  rewrite occurs_app. apply orb_false_iff. split; [| done].
  unfold spec_docName. apply occurs_each. intros x.
  destruct (Ascii.eqb x "/") eqn:Hx; [done |]. by apply Ascii.eqb_neq.
Qed.

Lemma docPath_parent (X : Env) (fileType : FileType) (path : string) :
  slice_to (docPath X fileType path) (LastIndex (docPath X fileType path) "/")
  = Some (docDir X fileType).
Proof. rewrite docPath_split. apply slice_to_parent, docName_md_flat. Qed.

Lemma slice_to_present (s : string) :
  occurs "/" s = true → is_Some (slice_to s (LastIndex s "/")).
Proof.
  intros Hs. pose proof (LastIndex_present s "/" Hs). unfold slice_to.
  rewrite decide_True by lia. eauto.
Qed.

Lemma codePath_parent (X : Env) (fileType : FileType) (path : string) :
  is_Some (slice_to (codePath X fileType path)
             (LastIndex (codePath X fileType path) "/")).
Proof.
  apply slice_to_present. unfold codePath.
  rewrite !stripCurlyBraces_app, !occurs_app.
  apply orb_true_iff. right. apply orb_true_iff. by left.
Qed.

Lemma codePath_not_docPath (X : Env) (fileType fileType' : FileType)
    (path path' : string) :
  codePath X fileType path ≠ docPath X fileType' path'.
Proof.
  intros E. apply (f_equal lastByte) in E. revert E.
  unfold codePath, docPath. rewrite !stripCurlyBraces_app.
  rewrite (lastByte_app _ _ "o"), (lastByte_app _ _ "d"); [done | |].
  - repeat (apply lastByte_app). reflexivity.
  - repeat (apply lastByte_app). reflexivity.
Qed.

(** X4: the output paths always have a parent directory, so that the
    slice that computes it never panics; the documentation files of a
    file type all go to one directory, whatever the endpoint; and the
    code file of an endpoint is never the documentation file of one. *)
Theorem output_paths_have_parents (X : Env) (fileType fileType' : FileType)
    (path path' : string) :
  is_Some (slice_to (codePath X fileType path)
             (LastIndex (codePath X fileType path) "/"))
  ∧ slice_to (docPath X fileType path)
      (LastIndex (docPath X fileType path) "/")
    = Some (docDir X fileType)
  ∧ codePath X fileType path ≠ docPath X fileType' path'.
Proof.
  split_and!.
  - apply codePath_parent.
  - apply docPath_parent.
  - apply codePath_not_docPath.
Qed.

(** ** Outcomes of the entry points *)

Lemma fs_world (p c d : string) (w : World) :
  writeFile p c (addDir d w)
  = with_fs w ({[d]} ∪ dirs w) (<[p := c]> (files w)).
Proof. reflexivity. Qed.

Lemma validateParams_no_panic (X : Env) (path : string)
    (σ : gmap loc OASSchema) (ps : list OASParameter) :
  Forall (has_schema σ) ps → (validateParams X path σ ps).1 ≠ Panic.
Proof.
  induction 1 as [|p ps (l & s & El & Es) _ IH]; simpl; [done |].
  rewrite El, Es.
  by destruct (StrListContains supportedParamTypes (schema_Type s)).
Qed.

Lemma extraction_has_schema (pathItem item1 : OASPathItem)
    (σ σ1 : gmap loc OASSchema) :
  Forall (has_schema σ) (item_Parameters pathItem) →
  appendPostParamsToTopLevel pathItem σ = Ok (item1, σ1) →
  Forall (has_schema σ1) (item_Parameters item1).
Proof.
  intros Hs H. destruct (post_content pathItem) as [content|] eqn:Ec.
  - destruct (extraction_facts _ _ _ _ _ Ec H)
      as (added & -> & Hev & _ & HF2 & _ & _).
    simpl. apply Forall_app. split.
    + eapply Forall_impl; [exact Hs |]. intros p (l & s & El & Es).
      destruct (evolves_lookup _ _ _ _ Hev Es) as (s' & Es' & _).
      by exists l, s'.
    + eapply Forall_impl; [exact HF2 |].
      intros p (_ & _ & _ & l & s & El & Es & _). by exists l, s.
  - rewrite appendPost_eq, Ec in H. by injection H as <- <-.
Qed.

Lemma toTemplateFriendly_no_panic (X : Env) (path parentDir : string)
    (w : World) :
  well_formed (pathItem w) (heap w) →
  Forall (λ p, is_Some (param_Schema p)) (item_Parameters (pathItem w)) →
  (toTemplateFriendly X path parentDir w).1 ≠ Panic.
Proof.
  intros Hwf Hs. destruct (extraction_total _ _ Hwf) as (item1 & σ1 & Ha).
  assert (Hhs : Forall (has_schema (heap w)) (item_Parameters (pathItem w))).
  { destruct Hwf as [Hrefs _]. rewrite Forall_forall in Hrefs, Hs.
    apply Forall_forall. intros p Hp. destruct (Hs p Hp) as [l El].
    destruct (Hrefs p Hp l El) as [s Es]. by exists l, s. }
  pose proof (extraction_has_schema _ _ _ _ Hhs Ha) as Hhs1.
  pose proof (validateParams_no_panic X path _ _ Hhs1) as Hv.
  unfold toTemplateFriendly. rewrite Ha.
  destruct (validateParams X path σ1 (item_Parameters item1))
    as [[[]|e|] msgs]; [| done | done].
  by destruct (DirName_total parentDir) as [dirName ->].
Qed.

(** A descriptor that gave a rendering context gives one again. *)
Lemma toTemplateFriendly_again (X : Env) (path parentDir path' parentDir' : string)
    (w w1 w2 : World) (ctx : templateFriendly) :
  toTemplateFriendly X path parentDir w = (Ok ctx, w1) →
  pathItem w2 = pathItem w1 → heap w2 = heap w1 →
  ∃ ctx', (toTemplateFriendly X path' parentDir' w2).1 = Ok ctx'.
Proof.
  intros H Ei Eh.
  apply toTemplateFriendly_Ok in H
    as (item1 & σ1 & dirName & Ha & Hv & Hs & -> & ->).
  simpl in Ei, Eh.
  pose proof (sort_Slice_perm lessByName (item_Parameters item1)) as Hp.
  symmetry in Hp.
  pose proof (extraction_fixed_sorted _ _ _ _ _ Ha Hp) as Ha2.
  unfold toTemplateFriendly. rewrite Ei, Eh, Ha2.
  apply validateParams_Ok_iff in Hv. rewrite Hp in Hv.
  apply (validateParams_Ok X path') in Hv. simpl item_Parameters.
  rewrite Hv. destruct (DirName_total parentDir') as [dirName' ->]. eauto.
Qed.

(** What a successful [generateFile] went through. *)
Lemma generateFile_Ok (X : Env) (os : OSOutcome) (pathToFile : string)
    (fileType : FileType) (vaultPath : string) (w : World) :
  (generateFile X os pathToFile fileType vaultPath w).1 = Ok () →
  ∃ parentDir ctx w1 out,
    slice_to pathToFile (LastIndex pathToFile "/") = Some parentDir
    ∧ mkdirAllErr os = None ∧ createErr os = None
    ∧ templateParse X fileType = None
    ∧ toTemplateFriendly X vaultPath parentDir
        (writeFile pathToFile EmptyString (addDir parentDir w))
      = (Ok ctx, w1)
    ∧ templateExecute X fileType ctx (heap w1) = (out, None)
    ∧ pathItem (generateFile X os pathToFile fileType vaultPath w).2
      = pathItem w1
    ∧ heap (generateFile X os pathToFile fileType vaultPath w).2 = heap w1
    ∧ (flushErr os = None →
       files (generateFile X os pathToFile fileType vaultPath w).2
       = <[pathToFile := out]> (files w)).
Proof.
  unfold generateFile, parseTemplate.
  destruct (slice_to pathToFile (LastIndex pathToFile "/")) as [parentDir|];
    [| done].
  destruct (mkdirAllErr os); [done |]. destruct (createErr os); [done |].
  destruct (templateParse X fileType); [done |].
  pose proof (toTemplateFriendly_frame X vaultPath parentDir
                (writeFile pathToFile EmptyString (addDir parentDir w)))
    as (_ & Hf & _).
  destruct (toTemplateFriendly X vaultPath parentDir
              (writeFile pathToFile EmptyString (addDir parentDir w)))
    as [[ctx|e|] w1] eqn:Et; [| done | done].
  destruct (templateExecute X fileType ctx (heap w1)) as [out [e|]] eqn:Ee;
    [done |].
  intros _. exists parentDir, ctx, w1, out. simpl in Hf.
  split_and!; try done.
  - by destruct (flushErr os), (closeErr os).
  - by destruct (flushErr os), (closeErr os).
  - intros ->. destruct (closeErr os); simpl; rewrite Hf; simpl;
      by rewrite insert_insert_eq.
Qed.

Lemma generateFile_no_panic (X : Env) (os : OSOutcome) (pathToFile : string)
    (fileType : FileType) (vaultPath : string) (w : World) :
  is_Some (slice_to pathToFile (LastIndex pathToFile "/")) →
  (∀ parentDir d f,
     (toTemplateFriendly X vaultPath parentDir (with_fs w d f)).1 ≠ Panic) →
  (generateFile X os pathToFile fileType vaultPath w).1 ≠ Panic.
Proof.
  intros [parentDir Hs] Ht. unfold generateFile, parseTemplate. rewrite Hs.
  destruct (mkdirAllErr os); [done |]. destruct (createErr os); [done |].
  destruct (templateParse X fileType); [by destruct (flushErr os) |].
  rewrite fs_world.
  specialize (Ht parentDir ({[parentDir]} ∪ dirs w)
                (<[pathToFile := EmptyString]> (files w))).
  destruct (toTemplateFriendly X vaultPath parentDir _) as [[ctx|e|] w1];
    [| done | done].
  by destruct (templateExecute X fileType ctx (heap w1)) as [out [e|]].
Qed.

(** X5: on a descriptor without nil media type object and without
    dangling reference, whose top-level parameters all have a schema,
    [GenerateFiles] does not panic: it returns success or an error. *)
Theorem GenerateFiles_no_panic (X : Env) (osCode osDoc : OSOutcome)
    (fileType : FileType) (vaultPath : string) (w : World) :
  well_formed (pathItem w) (heap w) →
  Forall (λ p, is_Some (param_Schema p)) (item_Parameters (pathItem w)) →
  (GenerateFiles X osCode osDoc fileType vaultPath w).1 ≠ Panic.
Proof.
  intros Hwf Hs. unfold GenerateFiles, generateCode, generateDoc.
  pose proof (generateFile_no_panic X osCode (codePath X fileType vaultPath)
                fileType vaultPath w (codePath_parent X fileType vaultPath))
    as Hcode.
  pose proof (generateFile_Ok X osCode (codePath X fileType vaultPath)
                fileType vaultPath w) as Hok.
  destruct (generateFile X osCode (codePath X fileType vaultPath) fileType
              vaultPath w) as [[[]|e|] w'] eqn:Eg; simpl in *.
  - destruct (Hok eq_refl)
      as (parentDir & ctx & w1 & out & _ & _ & _ & _ & Ht & _ & Ei & Eh & _).
    apply generateFile_no_panic.
    + rewrite docPath_parent. eauto.
    + intros parentDir' d f.
      destruct (toTemplateFriendly_again X vaultPath parentDir vaultPath
                  parentDir' _ w1 (with_fs w' d f) ctx Ht Ei Eh)
        as [ctx' ->].
      done.
  - done.
  - apply Hcode. intros parentDir d f.
    by apply toTemplateFriendly_no_panic.
Qed.




(** X7: [GenerateFiles] touches no file but the code file and the
    documentation file of the endpoint and only appends to the log; when
    the generation of the code does not succeed, its outcome is the
    outcome of the whole call and the documentation file is as it was. *)
Theorem GenerateFiles_frame (X : Env) (osCode osDoc : OSOutcome)
    (fileType : FileType) (vaultPath : string) (w : World) :
  (∀ q, q ≠ codePath X fileType vaultPath →
        q ≠ docPath X fileType vaultPath →
     files (GenerateFiles X osCode osDoc fileType vaultPath w).2 !! q
     = files w !! q)
  ∧ (∃ more, logged (GenerateFiles X osCode osDoc fileType vaultPath w).2
             = (logged w ++ more)%list)
  ∧ ((generateCode X osCode fileType vaultPath w).1 ≠ Ok () →
     GenerateFiles X osCode osDoc fileType vaultPath w
     = generateCode X osCode fileType vaultPath w
     ∧ files (GenerateFiles X osCode osDoc fileType vaultPath w).2
         !! docPath X fileType vaultPath
       = files w !! docPath X fileType vaultPath).
Proof.
  unfold GenerateFiles, generateCode, generateDoc.
  destruct (generateFile_frame_facts X osCode (codePath X fileType vaultPath)
              fileType vaultPath w) as (Hf1 & _ & (more1 & Hl1) & _).
  destruct (generateFile X osCode (codePath X fileType vaultPath) fileType
              vaultPath w) as [[[]|e|] w'] eqn:Eg; simpl in *.
  - destruct (generateFile_frame_facts X osDoc (docPath X fileType vaultPath)
                FileTypeDoc vaultPath w') as (Hf2 & _ & (more2 & Hl2) & _).
    split_and!.
    + intros q Hq1 Hq2. by rewrite Hf2, Hf1.
    + exists (more1 ++ more2)%list. by rewrite Hl2, Hl1, List.app_assoc.
    + done.
  - split_and!; [intros; by apply Hf1 | by exists more1 |].
    intros _. split; [done |]. apply Hf1. intros E. symmetry in E.
    by apply codePath_not_docPath in E.
  - split_and!; [intros; by apply Hf1 | by exists more1 |].
    intros _. split; [done |]. apply Hf1. intros E. symmetry in E.
    by apply codePath_not_docPath in E.
Qed.

Lemma bind_not_Err {A B : Type} (m : result A) (f : A → result B)
    (e : error) :
  (∀ a, f a ≠ Err e) → m ≠ Err e → (a ← m; f a) ≠ Err e.
Proof.
  intros Hf Hm. destruct m as [a|e'|]; simpl; [apply Hf | | done].
  intros [= ->]. by apply Hm.
Qed.

Lemma foldM_not_Err {A B : Type} (f : B → A → result B) (e : error) :
  (∀ b a, f b a ≠ Err e) → ∀ l b, foldM f b l ≠ Err e.
Proof.
  intros Hf l. induction l as [|a l IH]; intros b; simpl; [done |].
  apply bind_not_Err; [apply IH | apply Hf].
Qed.

Lemma seeParam_not_Err (st : gmap loc OASSchema * gset string)
    (p : OASParameter) (e : error) :
  seeParam st p ≠ Err e.
Proof.
  destruct st as [σ u]. rewrite seeParam_eq.
  destruct (param_Schema p) as [l|]; [| done]. by destruct (σ !! l).
Qed.

Lemma addMediaType_not_Err (st : merge_state)
    (entry : string * option OASMediaTypeObject) (e : error) :
  addMediaType st entry ≠ Err e.
Proof.
  unfold addMediaType. destruct (entry.2) as [m|]; [| done].
  destruct (media_Schema m) as [l|]; [| done].
  destruct (st.1.2 !! l) as [s|]; [| done].
  apply foldM_not_Err. intros [[ps σ] u'] [n sch]. rewrite addProperty_eq.
  case_decide; [done |]. destruct sch as [l'|]; [| done].
  by destruct (σ !! l').
Qed.

(** The extraction returns or panics: it has no error to return. *)
Lemma extraction_never_errs (pathItem : OASPathItem)
    (σ : gmap loc OASSchema) (e : error) :
  appendPostParamsToTopLevel pathItem σ ≠ Err e.
Proof.
  rewrite appendPost_eq.
  destruct (post_content pathItem) as [content|]; [| done].
  apply bind_not_Err.
  - intros [σa u]. apply bind_not_Err; [by intros [[? ?] ?] |].
    apply foldM_not_Err. intros. apply addMediaType_not_Err.
  - apply foldM_not_Err. intros. apply seeParam_not_Err.
Qed.

(** X8: [toTemplateFriendly] fails with no error but [ErrUnsupported];
    it then logs one message, which names the endpoint path and the type
    and the name of the first parameter whose type is not supported, and
    leaves the descriptor merged but not sorted; when it succeeds or
    panics it logs nothing. *)
Theorem toTemplateFriendly_errors (X : Env) (path parentDir : string)
    (w : World) :
  match (toTemplateFriendly X path parentDir w).1 with
  | Err e =>
      e = ErrUnsupported
      ∧ ∃ item1 σ1 pre p post l s,
          appendPostParamsToTopLevel (pathItem w) (heap w) = Ok (item1, σ1)
          ∧ item_Parameters item1 = (pre ++ p :: post)%list
          ∧ Forall (supported σ1) pre
          ∧ param_Schema p = Some l ∧ σ1 !! l = Some s
          ∧ (schema_Type s ∉ supportedParamTypes)
          ∧ logged (toTemplateFriendly X path parentDir w).2
            = (logged w
               ++ [unsupportedMessage X path (schema_Type s) (param_Name p)])%list
          ∧ pathItem (toTemplateFriendly X path parentDir w).2 = item1
          ∧ heap (toTemplateFriendly X path parentDir w).2 = σ1
  | _ => logged (toTemplateFriendly X path parentDir w).2 = logged w
  end.
Proof.
  unfold toTemplateFriendly.
  destruct (appendPostParamsToTopLevel (pathItem w) (heap w))
    as [[item1 σ1]|e|] eqn:Ha; [| | done].
  - destruct (validateParams X path σ1 (item_Parameters item1))
      as [[[]|e|] msgs] eqn:Hv; [| | done].
    + by destruct (slice_from parentDir (LastIndex parentDir "/" + 1)).
    + apply validateParams_Err in Hv
        as (-> & pre & p & post & l & s & Ep & HF & El & Es & Ht & ->).
      simpl. split; [done |]. by exists item1, σ1, pre, p, post, l, s.
  - by apply extraction_never_errs in Ha.
Qed.

(** ** When the extraction returns *)

(** X9: the extraction has no error to return, and on a descriptor
    without nil media type object and without dangling reference it does
    not panic either: it returns the merged descriptor. *)
Theorem extraction_returns (pathItem : OASPathItem) (σ : gmap loc OASSchema) :
  (∀ e, appendPostParamsToTopLevel pathItem σ ≠ Err e)
  ∧ (well_formed pathItem σ →
     ∃ item1 σ1, appendPostParamsToTopLevel pathItem σ = Ok (item1, σ1)).
Proof.
  split; [intros e; apply extraction_never_errs | apply extraction_total].
Qed.

Lemma foldM_panics {A B : Type} (f : B → A → result B) (a0 : A) :
  (∀ b, f b a0 = Panic) → (∀ b a e, f b a ≠ Err e) →
  ∀ l b, a0 ∈ l → foldM f b l = Panic.
Proof.
  intros Hp He l. induction l as [|a l IH]; intros b Hin.
  - by apply elem_of_nil in Hin.
  - simpl. apply elem_of_cons in Hin as [<-|Hin]; [by rewrite Hp |].
    destruct (f b a) as [b'|e|] eqn:E; simpl; [by apply IH | | done].
    by apply He in E.
Qed.

(** X10: a nil media type object in the content map of the POST body
    makes the extraction panic, wherever it is in the map and whatever
    the parameters are. *)
Theorem nil_media_type_panics (pathItem : OASPathItem)
    (σ : gmap loc OASSchema)
    (content : list (string * option OASMediaTypeObject)) (key : string) :
  post_content pathItem = Some content →
  (key, None) ∈ content →
  appendPostParamsToTopLevel pathItem σ = Panic.
Proof.
  intros Ec Hin. rewrite appendPost_eq, Ec.
  destruct (foldM seeParam (σ, ∅) (item_Parameters pathItem))
    as [[σa u]|e|] eqn:E1; [| | done].
  - rewrite bind_Ok.
    rewrite (foldM_panics addMediaType (key, None)); try done.
    intros. apply addMediaType_not_Err.
  - apply foldM_not_Err in E1; [done |]. intros. apply seeParam_not_Err.
Qed.

(** X11: the extraction deletes no schema object and changes neither the
    type nor the description nor the properties nor present display
    attributes of one; an object that it adds is the zero schema with
    empty display attributes. *)
Theorem extraction_keeps_schemas (pathItem item1 : OASPathItem)
    (σ σ1 : gmap loc OASSchema) :
  appendPostParamsToTopLevel pathItem σ = Ok (item1, σ1) →
  (∀ l s, σ !! l = Some s →
     ∃ s', σ1 !! l = Some s'
           ∧ schema_Type s' = schema_Type s
           ∧ schema_Description s' = schema_Description s
           ∧ schema_Properties s' = schema_Properties s
           ∧ (is_Some (schema_DisplayAttrs s) → s' = s))
  ∧ (∀ l s', σ !! l = None → σ1 !! l = Some s' →
       s' = set_DisplayAttrs zeroSchema).
Proof.
  intros H.
  assert (Hev : evolves σ σ1).
  { destruct (post_content pathItem) as [content|] eqn:Ec.
    - by destruct (extraction_facts _ _ _ _ _ Ec H) as (added & _ & Hev & _).
    - rewrite appendPost_eq, Ec in H. by injection H as <- <-. }
  split.
  - intros l s Es.
    destruct (evolves_lookup _ _ _ _ Hev Es) as (s' & Es' & Hs').
    exists s'. split; [done |]. destruct Hs' as [->| ->]; [done |].
    rewrite ensured_Type, ensured_Description, ensured_Properties.
    split_and!; try done. apply ensured_id.
  - intros l s' En Es'. specialize (Hev l). rewrite En in Hev.
    destruct Hev as [E|E]; rewrite E in Es'; [done |]. by injection Es' as <-.
Qed.

(** ** Endpoints that share output files *)

Lemma each_each (f : ascii → ascii) (s : string) :
  (∀ x, f (f x) = f x) → each f (each f s) = each f s.
Proof.
  intros Hf. induction s as [|x s IH]; simpl; [done |]. by rewrite Hf, IH.
Qed.

Lemma stripCurlyBraces_idemp (s : string) :
  stripCurlyBraces (stripCurlyBraces s) = stripCurlyBraces s.
Proof.
  rewrite !stripCurlyBraces_spec. unfold spec_stripBraces.
  rewrite keep_keep. apply keep_ext. intros x. by destruct (is_brace x).
Qed.

Lemma docPath_by_name (X : Env) (fileType : FileType) (path path' : string) :
  spec_docName path = spec_docName path' →
  docPath X fileType path = docPath X fileType path'.
Proof. intros E. by rewrite !docPath_split, E. Qed.

(** X12: the output paths do not tell apart endpoints that differ in
    brace markers only, and the documentation path does not tell apart a
    separator from a dash either: such endpoints are written to the same
    file. *)
Theorem endpoints_sharing_output_files (X : Env) (fileType : FileType)
    (s : string) :
  codePath X fileType (stripCurlyBraces s) = codePath X fileType s
  ∧ docPath X fileType (String "/" (stripCurlyBraces s))
    = docPath X fileType (String "/" s)
  ∧ docPath X fileType (String "/" (Replace s "/" "-"))
    = docPath X fileType (String "/" s).
Proof.
  split_and!.
  - unfold codePath. rewrite !stripCurlyBraces_app.
    by rewrite stripCurlyBraces_idemp.
  - apply docPath_by_name. unfold spec_docName. simpl spec_dropLeadingSlash.
    rewrite <- stripCurlyBraces_spec at 1. by rewrite stripCurlyBraces_idemp,
      stripCurlyBraces_spec.
  - apply docPath_by_name. unfold spec_docName. simpl spec_dropLeadingSlash.
    rewrite Replace_byte_each. unfold spec_stripBraces.
    rewrite each_keep_comm, each_each; [done | |].
    + intros x. destruct (Ascii.eqb_spec x "/") as [->|Hx]; [done |].
      by destruct (Ascii.eqb_spec x "/").
    + intros x. by destruct (Ascii.eqb_spec x "/") as [->|Hx].
Qed.

(** ** The bytes of the prefixes *)










(** ** The home directory of the repository *)

Lemma HasPrefix_app (sep tail : string) : HasPrefix (sep +:+ tail) sep = true.
Proof.
  induction sep as [|c sep IH]; [by destruct tail |].
  rewrite append_cons. simpl. by rewrite Ascii.eqb_refl, IH.
Qed.

Lemma HasPrefix_inv (s sep : string) :
  HasPrefix s sep = true → ∃ tail, s = sep +:+ tail.
Proof.
  revert s. induction sep as [|c sep IH]; intros s.
  - intros _. by exists s.
  - destruct s as [|d s]; [done |]. simpl.
    intros [Hc Hs]%andb_true_iff. apply Ascii.eqb_eq in Hc as ->.
    destruct (IH s Hs) as [tail ->]. by exists tail.
Qed.

(** Whether [sep] is a prefix shows on the first bytes. *)
Lemma HasPrefix_long (a x y sep : string) :
  (String.length sep ≤ String.length a)%nat →
  HasPrefix (a +:+ x) sep = HasPrefix (a +:+ y) sep.
Proof.
  revert a. induction sep as [|c sep IH]; intros a Hl.
  - by destruct (a +:+ x), (a +:+ y).
  - destruct a as [|d a]; [simpl in Hl; lia |].
    rewrite !append_cons. simpl. rewrite (IH a); [done |]. simpl in Hl. lia.
Qed.

Arguments HasPrefix : simpl never.

Lemma beforeFirst_found (s sep : string) :
  contains s sep → ∃ tail, s = beforeFirst s sep +:+ sep +:+ tail.
Proof.
  induction s as [|c s IH]; intros (pre & tail & E).
  - destruct pre; [| done]. destruct sep; [| done]. by exists EmptyString.
  - simpl. destruct (HasPrefix (String c s) sep) eqn:Hp.
    + apply HasPrefix_inv in Hp as [tail' ->]. by exists tail'.
    + destruct pre as [|d pre].
      { rewrite append_nil_l in E. rewrite E, HasPrefix_app in Hp. done. }
      rewrite append_cons in E. injection E as <- ->.
      destruct IH as [tail' E']; [by exists pre, tail |].
      exists tail'. rewrite append_cons. by rewrite <- E'.
Qed.

Lemma beforeFirst_absent (s sep : string) :
  ¬ contains s sep → beforeFirst s sep = s.
Proof.
  induction s as [|c s IH]; intros Hn; simpl; [done |].
  destruct (HasPrefix (String c s) sep) eqn:Hp.
  - destruct Hn. apply HasPrefix_inv in Hp as [tail ->].
    by exists EmptyString, tail.
  - rewrite IH; [done |]. intros (pre & tail & ->). apply Hn.
    exists (String c pre), tail. by rewrite append_cons.
Qed.

Lemma beforeFirst_stable (s sep rest : string) :
  sep ≠ EmptyString → contains s sep →
  beforeFirst (beforeFirst s sep +:+ sep +:+ rest) sep = beforeFirst s sep.
Proof.
  intros Hsep. induction s as [|c s IH]; intros Hc.
  - destruct Hc as (pre & tail & E). destruct pre; [| done].
    by destruct sep.
  - simpl. destruct (HasPrefix (String c s) sep) eqn:Hp.
    + rewrite append_nil_l. destruct sep as [|d sep]; [done |].
      rewrite append_cons. simpl beforeFirst.
      by rewrite <- append_cons, HasPrefix_app.
    + assert (Hs : contains s sep).
      { destruct Hc as (pre & tail & E). destruct pre as [|d pre].
        - rewrite append_nil_l in E. by rewrite E, HasPrefix_app in Hp.
        - rewrite append_cons in E. injection E as <- ->. by exists pre, tail. }
      destruct (beforeFirst_found s sep Hs) as [tail E].
      rewrite append_cons. simpl beforeFirst.
      assert (HasPrefix
                (String c (beforeFirst s sep +:+ sep +:+ rest)) sep = false)
        as ->.
      { rewrite <- Hp. rewrite E at 2.
        rewrite <- !append_cons, <- !append_assoc.
        apply HasPrefix_long. rewrite length_app. lia. }
      by rewrite IH.
Qed.

(** X14: when the working directory is inside the repository (its path
    holds the repository name), the home directory is a prefix of it that
    ends with the first occurrence of that name, and the same home
    directory is found from every path below it; from a working directory
    that does not hold the name, the home directory is the working
    directory with the name put after it, without a separator. *)
Theorem home_directory (wd : string) :
  (contains wd repoName →
   (∃ tail, wd = pathToHomeDir_init wd +:+ tail)
   ∧ ∀ rest, pathToHomeDir_init (pathToHomeDir_init wd +:+ rest)
             = pathToHomeDir_init wd)
  ∧ (¬ contains wd repoName → pathToHomeDir_init wd = wd +:+ repoName).
Proof.
  unfold pathToHomeDir_init. split.
  - intros Hc. split.
    + destruct (beforeFirst_found wd repoName Hc) as [tail E].
      exists tail. by rewrite append_assoc.
    + intros rest. rewrite append_assoc.
      by rewrite beforeFirst_stable.
  - intros Hn. by rewrite beforeFirst_absent.
Qed.

(** X15: when [generateFile] returns without error, the directory and
    the file were created, the template was parsed, the descriptor was
    merged and found supported, and the template ran without error on
    the rendering context; the file then holds what the template wrote,
    provided the flush succeeded. *)
Theorem generateFile_success_means (X : Env) (os : OSOutcome)
    (pathToFile : string) (fileType : FileType) (vaultPath : string)
    (w : World) :
  (generateFile X os pathToFile fileType vaultPath w).1 = Ok () →
  ∃ parentDir ctx w1 out,
    slice_to pathToFile (LastIndex pathToFile "/") = Some parentDir
    ∧ mkdirAllErr os = None ∧ createErr os = None
    ∧ templateParse X fileType = None
    ∧ toTemplateFriendly X vaultPath parentDir
        (writeFile pathToFile EmptyString (addDir parentDir w))
      = (Ok ctx, w1)
    ∧ templateExecute X fileType ctx (heap w1) = (out, None)
    ∧ pathItem (generateFile X os pathToFile fileType vaultPath w).2
      = pathItem w1
    ∧ heap (generateFile X os pathToFile fileType vaultPath w).2 = heap w1
    ∧ (flushErr os = None →
       files (generateFile X os pathToFile fileType vaultPath w).2
       = <[pathToFile := out]> (files w)).
Proof. apply generateFile_Ok. Qed.

(** ** Where an appended parameter comes from *)

Lemma made_from_later (σ σ' : gmap loc OASSchema) (p : OASParameter)
    (n : string) (sch : option loc) :
  evolves σ σ' → made_from σ p n sch → made_from σ' p n sch.
Proof.
  intros Hev (? & ? & ? & ? & l & s & El & Es & Hs & Hd & Hm).
  split_and!; try done. exists l, s. split_and!; try done.
  eauto using evolves_keeps_filled.
Qed.

Lemma lifts_refl (R : string → option loc → Prop) (st : merge_state) :
  lifts R st st.
Proof. exists []. by rewrite app_nil_r. Qed.

Lemma lifts_trans (R : string → option loc → Prop) (st1 st2 st3 : merge_state) :
  lifts R st1 st2 → lifts R st2 st3 → lifts R st1 st3.
Proof.
  intros (a1 & E1 & Hev1 & HF1) (a2 & E2 & Hev2 & HF2).
  exists (a1 ++ a2)%list. split_and!.
  - by rewrite E2, E1, app_assoc.
  - by etrans.
  - apply Forall_app. split; [| done].
    eapply Forall_impl; [exact HF1 |]. intros p (n & sch & HR & Hm).
    exists n, sch. eauto using made_from_later.
Qed.

Lemma lifts_weaken (R R' : string → option loc → Prop) (st st' : merge_state) :
  (∀ n sch, R n sch → R' n sch) → lifts R st st' → lifts R' st st'.
Proof.
  intros HR (added & E & Hev & HF). exists added. split_and!; try done.
  eapply Forall_impl; [exact HF |]. intros p (n & sch & ? & ?).
  exists n, sch. eauto.
Qed.

Lemma addProperty_lifts (R : string → option loc → Prop) (st st' : merge_state)
    (n : string) (sch : option loc) :
  R n sch → addProperty st (n, sch) = Ok st' → lifts R st st'.
Proof.
  destruct st as [[params σ] u]. intros HR. rewrite addProperty_eq.
  case_decide as Hn; [intros [= <-]; apply lifts_refl |].
  destruct sch as [l|].
  - destruct (σ !! l) as [s|] eqn:E; [| done]. intros [= <-].
    eexists [_]. simpl. split_and!; [done | by apply evolves_insert |].
    repeat constructor. exists n, (Some l). split; [done |].
    split_and!; try done. exists l, (ensured s). simpl.
    rewrite lookup_insert_eq. split_and!; try done. apply ensured_filled.
  - intros [= <-].
    eexists [_]. simpl. split_and!; [done | apply evolves_alloc |].
    repeat constructor. exists n, None. split; [done |].
    split_and!; try done. exists (fresh (dom σ)), (ensured zeroSchema). simpl.
    rewrite lookup_insert_eq. by split_and!.
Qed.

Lemma props_lifts (R : string → option loc → Prop)
    (props : list (string * option loc)) (st st' : merge_state) :
  (∀ n sch, (n, sch) ∈ props → R n sch) →
  foldM addProperty st props = Ok st' → lifts R st st'.
Proof.
  revert st. induction props as [|[n sch] props IH]; intros st HR; simpl.
  - intros [= <-]. apply lifts_refl.
  - destruct (addProperty st (n, sch)) as [st1| |] eqn:E; simpl; [| done..].
    intros H. eapply lifts_trans.
    + eapply addProperty_lifts; [| exact E]. apply HR. left.
    + apply IH; [| done]. intros ? ? ?. apply HR. by right.
Qed.

Lemma content_lifts (σ0 : gmap loc OASSchema)
    (full content : list (string * option OASMediaTypeObject))
    (st st' : merge_state) :
  (∀ e, e ∈ content → e ∈ full) → evolves σ0 st.1.2 →
  foldM addMediaType st content = Ok st' →
  lifts (property_of σ0 full) st st'.
Proof.
  revert st. induction content as [|entry content IH]; intros st Hsub Hev; simpl.
  - intros [= <-]. apply lifts_refl.
  - destruct (addMediaType st entry) as [st1| |] eqn:E; simpl; [| done..].
    intros H.
    assert (H1 : lifts (property_of σ0 full) st st1).
    { unfold addMediaType in E. destruct (entry.2) as [m|] eqn:Em; [| done].
      destruct (media_Schema m) as [l|] eqn:El.
      2: { injection E as <-. apply lifts_refl. }
      destruct (st.1.2 !! l) as [s|] eqn:Es; [| done].
      apply (props_lifts (λ n sch, (n, sch) ∈ schema_Properties s)) in E;
        [| done].
      eapply lifts_weaken; [| exact E]. intros n sch Hn.
      destruct (evolves_back _ _ _ _ Hev Es) as [(s0 & Es0 & Ep)|Ep].
      - exists entry.1, m, l, s0. split_and!; try done.
        + apply Hsub. destruct entry as [k o]. simpl in *. subst. left.
        + by rewrite Ep.
      - rewrite Ep in Hn. by apply elem_of_nil in Hn. }
    eapply lifts_trans; [exact H1 |]. apply IH; [| | done].
    + intros. apply Hsub. by right.
    + destruct H1 as (? & _ & ? & _). by etrans.
Qed.

Lemma extraction_provenance (pathItem item1 : OASPathItem)
    (σ σ1 : gmap loc OASSchema)
    (content : list (string * option OASMediaTypeObject)) :
  post_content pathItem = Some content →
  appendPostParamsToTopLevel pathItem σ = Ok (item1, σ1) →
  ∃ added,
    item_Parameters item1 = (item_Parameters pathItem ++ added)%list
    ∧ Forall (λ p, ∃ n sch, property_of σ content n sch
                            ∧ made_from σ1 p n sch) added.
Proof.
  intros Ec. rewrite appendPost_eq, Ec.
  destruct (foldM seeParam (σ, ∅) (item_Parameters pathItem))
    as [[σa u]| |] eqn:E1; [| done..].
  rewrite bind_Ok.
  destruct (foldM addMediaType (item_Parameters pathItem, σa, u) content)
    as [[[params σb] u']| |] eqn:E2; [| done..].
  rewrite bind_Ok. intros [= <- <-].
  apply loop1_facts in E1 as (Hev1 & _).
  apply (content_lifts σ content) in E2 as (added & Ea & _ & HF);
    [| done | done].
  simpl in *. subst params. by exists added.
Qed.

(** X16: a parameter that the extraction appends was made from a property
    of the POST body: it has the name of the property, the location
    [post], the description of the schema, is neither required nor
    deprecated, and refers to the very schema object of the property (no
    copy is made), or to a new zero schema with empty display attributes
    when the property has no schema. *)
Theorem appended_parameters_alias_body_schemas (pathItem item1 : OASPathItem)
    (σ σ1 : gmap loc OASSchema) :
  appendPostParamsToTopLevel pathItem σ = Ok (item1, σ1) →
  ∃ added,
    item_Parameters item1 = (item_Parameters pathItem ++ added)%list
    ∧ Forall (λ p, ∃ content n sch,
                post_content pathItem = Some content
                ∧ property_of σ content n sch ∧ made_from σ1 p n sch) added.
Proof.
  intros H. destruct (post_content pathItem) as [content|] eqn:Ec.
  - destruct (extraction_provenance _ _ _ _ _ Ec H) as (added & E & HF).
    exists added. split; [done |].
    eapply Forall_impl; [exact HF |]. intros p (n & sch & ? & ?).
    by exists content, n, sch.
  - rewrite appendPost_eq, Ec in H. injection H as <- <-.
    exists []. by rewrite app_nil_r.
Qed.

(** X17: a property of the POST body that has no schema anywhere in the
    content map and whose name is not the name of a top-level parameter
    keeps [toTemplateFriendly] from returning a rendering context: the
    parameter made from it has the empty type tag, which is not
    supported. *)
Theorem property_without_schema_is_unsupported (X : Env)
    (path parentDir : string) (w : World)
    (content : list (string * option OASMediaTypeObject)) (n : string) :
  post_content (pathItem w) = Some content →
  n ∉ map param_Name (item_Parameters (pathItem w)) →
  property_of (heap w) content n None →
  (∀ sch, property_of (heap w) content n sch → sch = None) →
  ∀ ctx, (toTemplateFriendly X path parentDir w).1 ≠ Ok ctx.
Proof.
  intros Ec Hn Hprop Hnil ctx Hr.
  destruct (toTemplateFriendly X path parentDir w) as [r w'] eqn:Et.
  simpl in Hr. subst r.
  apply toTemplateFriendly_Ok in Et
    as (item1 & σ1 & dirName & Ha & Hv & _).
  apply validateParams_Ok_iff in Hv.
  destruct (extraction_provenance _ _ _ _ _ Ec Ha) as (added & E & HF).
  assert (Hin : n ∈ map param_Name (item_Parameters item1)).
  { apply (extraction_names _ _ _ _ n Ha). right. exists content.
    split; [done |]. destruct Hprop as (key & m & l & s & ? & ? & ? & ?).
    by exists key, m, l, s, None. }
  rewrite E, map_app, elem_of_app in Hin. destruct Hin as [Hin|Hin]; [done |].
  apply list_elem_of_fmap in Hin as (p & -> & Hp).
  rewrite Forall_forall in HF, Hv.
  destruct (HF p Hp)
    as (n' & sch & HR & En & _ & _ & _ & l & s & El & Es & _ & _ & Hm).
  subst n'. apply Hnil in HR. subst sch. subst s.
  destruct (Hv p) as (l' & s' & El' & Es' & Ht).
  { rewrite E. apply elem_of_app. by right. }
  rewrite El in El'. injection El' as <-. rewrite Es in Es'.
  injection Es' as <-. simpl in Ht.
  revert Ht. by_evaluation.
Qed.

(** ** Further examples *)

(** Every reference of the concrete descriptors is to an object of the
    store. *)
Ltac refs_by_evaluation :=
  repeat match goal with
         | |- Forall _ [] => by apply Forall_nil
         | |- Forall _ (_ :: _) => apply Forall_cons; split
         | |- refs_ok _ _ => intros ? [= <-]; by_evaluation
         | |- refs_ok _ _ => by intros ? [=]
         | |- Forall _ _ => progress simpl
         end.

Lemma roleItem_well_formed : well_formed roleItem exampleHeap.
Proof.
  split.
  - refs_by_evaluation.
  - simpl. apply Forall_cons. split; [| by apply Forall_nil].
    exists (mkOASMediaTypeObject (Some 5%positive)). split; [done |].
    intros l [= <-]. exists bodySchema. split; [done |]. refs_by_evaluation.
Defined.

(** [roleItem], rendered for the code file and then for the doc file. *)
Lemma context_rebuilt_on_reused_descriptor_witness :
  toTemplateFriendly exampleEnv rolePath roleDir (worldOf roleItem)
  = (Ok roleContext, roleAfter)
  ∧ ∃ dirName',
      slice_from roleDocDir (LastIndex roleDocDir "/" + 1) = Some dirName'
      ∧ toTemplateFriendly exampleEnv rolePath roleDocDir roleAfter
        = (Ok (mkTemplateFriendly rolePath dirName'
                 (Title (ToLower (funcPrefix rolePath)))
                 (ToLower (funcPrefix rolePath))
                 (Parameters roleContext) (SupportsRead roleContext)
                 (SupportsWrite roleContext) (SupportsDelete roleContext)),
           roleAfter).
Proof.
  assert (Hnd : NoDup (map param_Name
                         (item_Parameters (pathItem (worldOf roleItem)))))
    by by_evaluation.
  assert (Hr : toTemplateFriendly exampleEnv rolePath roleDir (worldOf roleItem)
               = (Ok roleContext, roleAfter)) by (vm_compute; reflexivity).
  split; [done |].
  exact (context_rebuilt_on_reused_descriptor exampleEnv rolePath roleDir
           rolePath roleDocDir (worldOf roleItem) roleAfter roleContext
           Hnd Hr).
Defined.


(** The directory name of [roleContext] is [role]. *)
Lemma DirName_is_last_segment_witness :
  toTemplateFriendly exampleEnv rolePath roleDir (worldOf roleItem)
  = (Ok roleContext, roleAfter)
  ∧ is_last_segment roleDir (DirName roleContext).
Proof.
  assert (Hr : toTemplateFriendly exampleEnv rolePath roleDir (worldOf roleItem)
               = (Ok roleContext, roleAfter)) by (vm_compute; reflexivity).
  split; [done |].
  exact (DirName_is_last_segment exampleEnv rolePath roleDir
           (worldOf roleItem) roleAfter roleContext Hr).
Defined.

(** [roleItem] with an operating system that refuses the flush and the
    close. *)
Lemma GenerateFiles_no_panic_witness :
  well_formed roleItem exampleHeap
  ∧ (GenerateFiles exampleEnv osNoFlushNoClose osNoFlushNoClose
       FileTypeResource rolePath (worldOf roleItem)).1 ≠ Panic.
Proof.
  split; [exact roleItem_well_formed |].
  apply (GenerateFiles_no_panic exampleEnv osNoFlushNoClose osNoFlushNoClose
           FileTypeResource rolePath (worldOf roleItem)).
  - exact roleItem_well_formed.
  - simpl. refs_by_evaluation; by eexists.
Defined.


(** The code of [objectItem] is not generated: its doc file is not
    touched. *)
Lemma GenerateFiles_frame_witness :
  (generateCode exampleEnv osFine FileTypeResource objectPath
     (worldOf objectItem)).1 = Err ErrUnsupported
  ∧ GenerateFiles exampleEnv osFine osFine FileTypeResource objectPath
      (worldOf objectItem)
    = generateCode exampleEnv osFine FileTypeResource objectPath
        (worldOf objectItem)
  ∧ files (GenerateFiles exampleEnv osFine osFine FileTypeResource objectPath
             (worldOf objectItem)).2
      !! docPath exampleEnv FileTypeResource objectPath = None.
Proof.
  assert (Hc : (generateCode exampleEnv osFine FileTypeResource objectPath
                  (worldOf objectItem)).1 = Err ErrUnsupported)
    by (vm_compute; reflexivity).
  destruct (GenerateFiles_frame exampleEnv osFine osFine FileTypeResource
              objectPath (worldOf objectItem)) as (_ & _ & Hskip).
  destruct Hskip as [H1 H2]; [by rewrite Hc |].
  split_and!; [done | done |]. rewrite H2. reflexivity.
Defined.

(** The extraction of [roleItem] returns. *)
Lemma extraction_returns_witness :
  ∃ item1 σ1, appendPostParamsToTopLevel roleItem exampleHeap = Ok (item1, σ1).
Proof.
  exact (proj2 (extraction_returns roleItem exampleHeap) roleItem_well_formed).
Defined.

(** [nilMediaItem]: the second media type object is nil. *)
Lemma nil_media_type_panics_witness :
  appendPostParamsToTopLevel nilMediaItem exampleHeap = Panic.
Proof.
  apply (nil_media_type_panics nilMediaItem exampleHeap
           [("application/json", Some (mkOASMediaTypeObject (Some 5%positive)));
            ("text/plain", None)] "text/plain").
  - reflexivity.
  - right. left.
Defined.

(** The schema objects of [roleItem] after the extraction. *)
Lemma extraction_keeps_schemas_witness :
  appendPostParamsToTopLevel roleItem exampleHeap = Ok (roleMerged, roleHeap)
  ∧ ∃ s', roleHeap !! 5%positive = Some s'
          ∧ schema_Type s' = schema_Type bodySchema
          ∧ schema_Description s' = schema_Description bodySchema
          ∧ schema_Properties s' = schema_Properties bodySchema
          ∧ (is_Some (schema_DisplayAttrs bodySchema) → s' = bodySchema).
Proof.
  assert (Ha : appendPostParamsToTopLevel roleItem exampleHeap
               = Ok (roleMerged, roleHeap)) by (vm_compute; reflexivity).
  split; [done |].
  apply (proj1 (extraction_keeps_schemas roleItem roleMerged exampleHeap
                  roleHeap Ha) 5%positive bodySchema).
  vm_compute. reflexivity.
Defined.


(** From the directory [codegen] of the repository. *)
Lemma home_directory_witness :
  contains exampleWd repoName
  ∧ pathToHomeDir_init exampleWd = exampleHome
  ∧ ∀ rest, pathToHomeDir_init (pathToHomeDir_init exampleWd +:+ rest)
            = pathToHomeDir_init exampleWd.
Proof.
  assert (Hc : contains exampleWd repoName)
    by (exists "/home/dev/", "/codegen"; reflexivity).
  split_and!; [done | reflexivity |].
  exact (proj2 (proj1 (home_directory exampleWd) Hc)).
Defined.

(** The code file of [roleItem] is generated. *)
Lemma generateFile_success_means_witness :
  (generateFile exampleEnv osFine roleFile FileTypeResource rolePath
     (worldOf roleItem)).1 = Ok ()
  ∧ ∃ parentDir ctx w1 out,
      slice_to roleFile (LastIndex roleFile "/") = Some parentDir
      ∧ mkdirAllErr osFine = None ∧ createErr osFine = None
      ∧ templateParse exampleEnv FileTypeResource = None
      ∧ toTemplateFriendly exampleEnv rolePath parentDir
          (writeFile roleFile EmptyString (addDir parentDir (worldOf roleItem)))
        = (Ok ctx, w1)
      ∧ templateExecute exampleEnv FileTypeResource ctx (heap w1) = (out, None)
      ∧ pathItem (generateFile exampleEnv osFine roleFile FileTypeResource
                    rolePath (worldOf roleItem)).2 = pathItem w1
      ∧ heap (generateFile exampleEnv osFine roleFile FileTypeResource
                rolePath (worldOf roleItem)).2 = heap w1
      ∧ (flushErr osFine = None →
         files (generateFile exampleEnv osFine roleFile FileTypeResource
                  rolePath (worldOf roleItem)).2
         = <[roleFile := out]> (files (worldOf roleItem))).
Proof.
  assert (Hr : (generateFile exampleEnv osFine roleFile FileTypeResource
                  rolePath (worldOf roleItem)).1 = Ok ())
    by (vm_compute; reflexivity).
  split; [done |].
  exact (generateFile_success_means exampleEnv osFine roleFile
           FileTypeResource rolePath (worldOf roleItem) Hr).
Defined.

(** The parameters appended to [roleItem]. *)
Lemma appended_parameters_alias_body_schemas_witness :
  appendPostParamsToTopLevel roleItem exampleHeap = Ok (roleMerged, roleHeap)
  ∧ ∃ added,
      item_Parameters roleMerged = (item_Parameters roleItem ++ added)%list
      ∧ Forall (λ p, ∃ content n sch,
                  post_content roleItem = Some content
                  ∧ property_of exampleHeap content n sch
                  ∧ made_from roleHeap p n sch) added.
Proof.
  assert (Ha : appendPostParamsToTopLevel roleItem exampleHeap
               = Ok (roleMerged, roleHeap)) by (vm_compute; reflexivity).
  split; [done |].
  exact (appended_parameters_alias_body_schemas roleItem roleMerged
           exampleHeap roleHeap Ha).
Defined.

(** [looseItem]: the property [flag] has no schema. *)
Lemma property_without_schema_is_unsupported_witness :
  property_of looseHeap looseContent "flag" None
  ∧ (toTemplateFriendly exampleEnv "/loose" roleDir looseWorld).1
    = Err ErrUnsupported
  ∧ ∀ ctx, (toTemplateFriendly exampleEnv "/loose" roleDir looseWorld).1
           ≠ Ok ctx.
Proof.
  assert (Hp : property_of looseHeap looseContent "flag" None).
  { exists "application/json", (mkOASMediaTypeObject (Some 6%positive)),
      6%positive, looseBodySchema.
    split_and!; [left | done | done | left]. }
  split_and!; [done | vm_compute; reflexivity |].
  apply (property_without_schema_is_unsupported exampleEnv "/loose" roleDir
           looseWorld looseContent "flag"); [reflexivity | by_evaluation | done |].
  intros sch (key & m & l & s & Hk & El & Es & Hn).
  apply list_elem_of_singleton in Hk. injection Hk as -> ->.
  injection El as <-. vm_compute in Es. injection Es as <-.
  apply list_elem_of_singleton in Hn. by injection Hn as ->.
Defined.
